(** * weeklypedia-feed: a verified model of [generate_feed.py]

    The script reads the Weeklypedia archive index, extracts the issues
    with regular expressions, pulls the article sections out of each
    issue page and serialises everything as an RSS 2.0 document.

    The development embeds the three pure functions of the script,
    [parse_issues], [extract_content] and [generate_rss], together with
    the parts of the Python library they rest on: the backtracking
    matcher of [re] (for the constructs the script's patterns use),
    [str.strip], [datetime.strptime] with the format [%Y%m%d],
    [datetime.strftime] and the serialiser of [xml.etree.ElementTree].

    A Python [str] is a list of characters.  Characters are the code
    points below 256; in that range [\d] is [0-9] and the white space of
    [str.strip] is the set listed in [isspace]. *)

From Stdlib Require Import Ascii String List ZArith Lia Bool Arith.
From Stdlib Require DecimalString.
Import ListNotations.

Set Warnings "-register-all".

(** ** Strings *)

Definition str := list ascii.

Definition L (s : string) : str := list_ascii_of_string s.
Arguments L s%_string.

Definition dquote : ascii := "034"%char.
Definition newline : ascii := "010"%char.

Definition not_ch (c : ascii) (a : ascii) : bool := negb (Ascii.eqb c a).

(** [s.startswith(p)], returning what follows the prefix. *)
Fixpoint strip_prefix (p s : str) : option str :=
  match p with
  | [] => Some s
  | a :: p' =>
      match s with
      | [] => None
      | b :: s' => if Ascii.eqb a b then strip_prefix p' s' else None
      end
  end.

(** The text between two positions of a scan, the second given by what is
    left of the input there. *)
Definition consumed (s rest : str) : str :=
  firstn (length s - length rest) s.

(** [sep.join(parts)] *)
Fixpoint join (sep : str) (parts : list str) : str :=
  match parts with
  | [] => []
  | [p] => p
  | p :: ps => p ++ sep ++ join sep ps
  end.

(** [str.isspace] on one character. *)
Definition isspace (a : ascii) : bool :=
  let n := nat_of_ascii a in
  ((9 <=? n) && (n <=? 13)) || ((28 <=? n) && (n <=? 32))
  || (n =? 133) || (n =? 160).

Fixpoint lstrip (s : str) : str :=
  match s with
  | a :: s' => if isspace a then lstrip s' else s
  | [] => []
  end.

Definition rstrip (s : str) : str := rev (lstrip (rev s)).

(** [s.strip()] *)
Definition strip (s : str) : str := rstrip (lstrip s).

(** [s.replace(c, by)] for a one-character [c]. *)
Definition replace (c : ascii) (by_ : str) (s : str) : str :=
  flat_map (fun a => if Ascii.eqb a c then by_ else [a]) s.

(** ** The matcher of [re]

    Patterns are kept as syntax trees.  Repetition is over a character
    class, which is all the script's patterns need: [[^<]+], [[^>]*],
    [.*?] and [\d{8}]. *)

Module Re.

Inductive regex : Type :=
| Lit (l : str)                      (* literal text *)
| Cls (p : ascii -> bool)            (* one character of a class *)
| Seq (r1 r2 : regex)
| Alt (r1 r2 : regex)                (* r1|r2 *)
| StarG (p : ascii -> bool)          (* p*   greedy *)
| StarL (p : ascii -> bool)          (* p*?  lazy *)
| Rep (n : nat) (r : regex)          (* r{n} *)
| Grp (i : nat) (r : regex).         (* capturing group number i *)

(** [p+] *)
Definition PlusG (p : ascii -> bool) : regex := Seq (Cls p) (StarG p).

Definition digit (a : ascii) : bool :=
  let n := nat_of_ascii a in (48 <=? n) && (n <=? 57).

(** [.] under [re.DOTALL] *)
Definition any (_ : ascii) : bool := true.

(** Captured groups, most recent first. *)
Definition caps := list (nat * str).

Fixpoint group (i : nat) (c : caps) : str :=
  match c with
  | [] => []
  | (j, w) :: c' => if Nat.eqb i j then w else group i c'
  end.

(** The stops of a greedy repetition, longest first, and of a lazy one,
    shortest first; each stop is given by the rest of the input. *)
Fixpoint greedy (p : ascii -> bool) (s : str) : list str :=
  match s with
  | a :: s' => (if p a then greedy p s' else []) ++ [s]
  | [] => [[]]
  end.

Fixpoint lazy (p : ascii -> bool) (s : str) : list str :=
  match s with
  | a :: s' => s :: (if p a then lazy p s' else [])
  | [] => [[]]
  end.

(** All the ways [r] matches at the start of [s], in the order the
    backtracking matcher tries them: each is the groups captured so far
    and the rest of the input.  The match [re] reports is the first. *)
Fixpoint run (r : regex) (s : str) (c : caps) : list (caps * str) :=
  match r with
  | Lit l =>
      match strip_prefix l s with
      | Some s' => [(c, s')]
      | None => []
      end
  | Cls p =>
      match s with
      | a :: s' => if p a then [(c, s')] else []
      | [] => []
      end
  | Seq r1 r2 => flat_map (fun m => run r2 (snd m) (fst m)) (run r1 s c)
  | Alt r1 r2 => run r1 s c ++ run r2 s c
  | StarG p => map (pair c) (greedy p s)
  | StarL p => map (pair c) (lazy p s)
  | Rep n r =>
      (fix rep (n : nat) (s : str) (c : caps) : list (caps * str) :=
         match n with
         | O => [(c, s)]
         | S n' => flat_map (fun m => rep n' (snd m) (fst m)) (run r s c)
         end) n s c
  | Grp i r =>
      map (fun m => ((i, consumed s (snd m)) :: fst m, snd m)) (run r s c)
  end.

(** A match object: the groups (group 0 is the whole match) and the input
    after the match. *)
Definition match_at (r : regex) (s : str) : option (caps * str) :=
  hd_error (run (Grp 0 r) s []).

(** [re.search(r, s)]: the first match at the leftmost position that has
    one. *)
Fixpoint search (r : regex) (s : str) : option (caps * str) :=
  match match_at r s with
  | Some m => Some m
  | None =>
      match s with
      | [] => None
      | _ :: s' => search r s'
      end
  end.

(** [re.finditer(r, s)]: the scan for successive matches.  After a match
    the scan resumes where the match ended; [skip] counts the positions
    still inside the previous match.  (The patterns of the script never
    match the empty string, so the special treatment [re] gives to empty
    matches does not arise.) *)
Fixpoint scan (r : regex) (s : str) (skip : nat) : list caps :=
  match s with
  | [] => []
  | _ :: s' =>
      match skip with
      | S k => scan r s' k
      | O =>
          match match_at r s with
          | Some (c, rest) => c :: scan r s' (length s - length rest - 1)
          | None => scan r s' 0
          end
      end
  end.

(** [re.findall(r, s)] for a pattern with two groups: the pairs
    [(group 1, group 2)] of the successive matches. *)
Definition findall2 (r : regex) (s : str) : list (str * str) :=
  map (fun c => (group 1 c, group 2 c)) (scan r s 0).

(** What it means for [r] to match the word [w], taking the groups from
    [c] to [c']: the matches of [r] without the order the matcher tries
    them in. *)
Fixpoint matches (r : regex) (w : str) (c c' : caps) : Prop :=
  match r with
  | Lit l => w = l /\ c' = c
  | Cls p => (exists a, w = [a] /\ p a = true) /\ c' = c
  | Seq r1 r2 =>
      exists w1 w2 cm,
        w = w1 ++ w2 /\ matches r1 w1 c cm /\ matches r2 w2 cm c'
  | Alt r1 r2 => matches r1 w c c' \/ matches r2 w c c'
  | StarG p => forallb p w = true /\ c' = c
  | StarL p => forallb p w = true /\ c' = c
  | Rep n r =>
      (fix rep (n : nat) (w : str) (c c' : caps) : Prop :=
         match n with
         | O => w = [] /\ c' = c
         | S n' =>
             exists w1 w2 cm,
               w = w1 ++ w2 /\ matches r w1 c cm /\ rep n' w2 cm c'
         end) n w c c'
  | Grp i r => exists cm, matches r w c cm /\ c' = (i, w) :: cm
  end.

(** A pattern with at most one match at any position. *)
Definition det (r : regex) : Prop := forall s c, length (run r s c) <= 1.

Declare Scope regex_scope.
Delimit Scope regex_scope with re.
Bind Scope regex_scope with regex.
Infix ">>" := Seq (at level 65, right associativity) : regex_scope.
Infix "<|>" := Alt (at level 66, right associativity) : regex_scope.

End Re.

(** ** Exceptions *)

Inductive exn : Type := ValueError.

Inductive result (A : Type) : Type :=
| Ok (a : A)
| Raise (e : exn).
Arguments Ok {A} a.
Arguments Raise {A} e.

Definition bind {A B : Type} (m : result A) (k : A -> result B) : result B :=
  match m with
  | Ok a => k a
  | Raise e => Raise e
  end.

Notation "x <- m ;; k" := (bind m (fun x => k))
  (at level 90, m at next level, right associativity).

(** [try: body except ValueError: handler] *)
Definition try_except_ValueError {A : Type} (body handler : result A)
  : result A :=
  match body with
  | Ok a => Ok a
  | Raise ValueError => handler
  end.

(** [for x in xs: s = body(s, x)], stopping at the first exception that
    leaves the body. *)
Fixpoint for_each {A S : Type} (xs : list A) (body : S -> A -> result S)
  (s : S) : result S :=
  match xs with
  | [] => Ok s
  | x :: xs' => s' <- body s x ;; for_each xs' body s'
  end.

(** ** [datetime] *)

Module Datetime.

Import Re.
Local Open Scope Z_scope.

(** A [datetime] at midnight: the script never sets or prints a time of
    day of its own. *)
Record datetime : Type := mk_datetime { year : Z; month : Z; day : Z }.

Definition MINYEAR : Z := 1.
Definition MAXYEAR : Z := 9999.

Definition _is_leap (y : Z) : bool :=
  (y mod 4 =? 0) && (negb (y mod 100 =? 0) || (y mod 400 =? 0)).

Definition _DAYS_IN_MONTH : list Z :=
  [-1; 31; 28; 31; 30; 31; 30; 31; 31; 30; 31; 30; 31].

Definition _days_in_month (y m : Z) : Z :=
  if (m =? 2) && _is_leap y then 29
  else nth (Z.to_nat m) _DAYS_IN_MONTH 0.

(** The constructor, with [_check_date_fields]. *)
Definition new (y m d : Z) : result datetime :=
  if negb ((MINYEAR <=? y) && (y <=? MAXYEAR)) then Raise ValueError
  else if negb ((1 <=? m) && (m <=? 12)) then Raise ValueError
  else if negb ((1 <=? d) && (d <=? _days_in_month y m)) then Raise ValueError
  else Ok (mk_datetime y m d).

(** [int(s)] on a string of decimal digits, leading blanks allowed. *)
Definition digit_value (a : ascii) : Z := Z.of_nat (nat_of_ascii a) - 48.

Definition int (s : str) : Z :=
  fold_left (fun n a => 10 * n + digit_value a) (lstrip s) 0.

Definition range (lo hi : ascii) (a : ascii) : bool :=
  ((nat_of_ascii lo <=? nat_of_ascii a)
   && (nat_of_ascii a <=? nat_of_ascii hi))%nat.

(** The pattern [_strptime] compiles [%Y%m%d] to:
    [(?P<Y>\d\d\d\d)(?P<m>1[0-2]|0[1-9]|[1-9])
     (?P<d>3[0-1]|[1-2]\d|0[1-9]|[1-9]| [1-9])],
    with [Y], [m], [d] numbered 1, 2, 3. *)
Definition year_regex : regex :=
  (Cls digit >> Cls digit >> Cls digit >> Cls digit)%re.

Definition month_regex : regex :=
  ((Lit (L "1") >> Cls (range "0" "2"))
   <|> (Lit (L "0") >> Cls (range "1" "9"))
   <|> Cls (range "1" "9"))%re.

Definition day_regex : regex :=
  ((Lit (L "3") >> Cls (range "0" "1"))
   <|> (Cls (range "1" "2") >> Cls digit)
   <|> (Lit (L "0") >> Cls (range "1" "9"))
   <|> Cls (range "1" "9")
   <|> (Lit (L " ") >> Cls (range "1" "9")))%re.

Definition format_regex : regex :=
  (Grp 1 year_regex >> Grp 2 month_regex >> Grp 3 day_regex)%re.

(** [datetime.strptime(data_string, "%Y%m%d")]: the format's pattern must
    match at the start and leave nothing over, and the three numbers must
    make a date. *)
Definition strptime (data_string : str) : result datetime :=
  match match_at format_regex data_string with
  | None => Raise ValueError
  | Some (found, rest) =>
      match rest with
      | _ :: _ => Raise ValueError   (* unconverted data remains *)
      | [] => new (int (group 1 found)) (int (group 2 found))
                  (int (group 3 found))
      end
  end.

(** [date.toordinal] and [date.weekday] (Monday is 0). *)
Definition _days_before_year (y : Z) : Z :=
  let y' := y - 1 in y' * 365 + y' / 4 - y' / 100 + y' / 400.

Definition _DAYS_BEFORE_MONTH : list Z :=
  [-1; 0; 31; 59; 90; 120; 151; 181; 212; 243; 273; 304; 334].

Definition _days_before_month (y m : Z) : Z :=
  nth (Z.to_nat m) _DAYS_BEFORE_MONTH 0
  + (if (2 <? m) && _is_leap y then 1 else 0).

Definition toordinal (d : datetime) : Z :=
  _days_before_year (year d) + _days_before_month (year d) (month d) + day d.

Definition weekday (d : datetime) : Z := (toordinal d + 6) mod 7.

(** The directives of [strftime] the script uses, in the C locale: the
    names of the days and months, two digits for [%d], four for [%Y].
    (Below the year 1000 the C library decides whether [%Y] is padded to
    four digits; here it is.  No statement below depends on it.) *)
Definition digit_char (n : Z) : ascii := ascii_of_nat (48 + Z.to_nat n).

Definition fmt_a (d : datetime) : str :=
  nth (Z.to_nat (weekday d))
      [L "Mon"; L "Tue"; L "Wed"; L "Thu"; L "Fri"; L "Sat"; L "Sun"] [].

Definition fmt_b (d : datetime) : str :=
  nth (Z.to_nat (month d))
      [[]; L "Jan"; L "Feb"; L "Mar"; L "Apr"; L "May"; L "Jun";
       L "Jul"; L "Aug"; L "Sep"; L "Oct"; L "Nov"; L "Dec"] [].

Definition fmt_d (d : datetime) : str :=
  [digit_char (day d / 10 mod 10); digit_char (day d mod 10)].

Definition fmt_Y (d : datetime) : str :=
  [digit_char (year d / 1000 mod 10); digit_char (year d / 100 mod 10);
   digit_char (year d / 10 mod 10); digit_char (year d mod 10)].

End Datetime.

(** ** [xml.etree.ElementTree] *)

Module ET.

(** An element: tag, attributes in insertion order, text and children.
    (The script sets no tail.) *)
Inductive Element : Type :=
| Elem (tag : str) (attrib : list (str * str)) (text : option str)
       (children : list Element).

Definition tag (e : Element) : str := let (t, _, _, _) := e in t.
Definition text (e : Element) : option str := let (_, _, t, _) := e in t.
Definition children (e : Element) : list Element :=
  let (_, _, _, c) := e in c.

(** [ET.SubElement(parent, tag).text = text], as the child it appends. *)
Definition text_elem (tag text : str) : Element :=
  Elem tag [] (Some text) [].

Definition _escape_cdata (text : str) : str :=
  replace ">" (L "&gt;") (replace "<" (L "&lt;") (replace "&" (L "&amp;") text)).

Definition _escape_attrib (text : str) : str :=
  replace "009" (L "&#09;")
    (replace "010" (L "&#10;")
       (replace "013" (L "&#13;")
          (replace dquote (L "&quot;")
             (replace ">" (L "&gt;")
                (replace "<" (L "&lt;") (replace "&" (L "&amp;") text)))))).

Definition truthy (t : option str) : bool :=
  match t with
  | Some (_ :: _) => true
  | _ => false
  end.

(** [_serialize_xml] with [short_empty_elements=True], the default of
    [ET.tostring]. *)
Fixpoint _serialize_xml (e : Element) : str :=
  match e with
  | Elem tag attrib text children =>
      L "<" ++ tag
      ++ flat_map (fun kv => L " " ++ fst kv ++ L "=" ++ [dquote]
                             ++ _escape_attrib (snd kv) ++ [dquote]) attrib
      ++ (if truthy text || negb (Nat.eqb (length children) 0) then
            L ">"
            ++ (match text with
                | Some t => if truthy text then _escape_cdata t else []
                | None => []
                end)
            ++ flat_map _serialize_xml children
            ++ L "</" ++ tag ++ L ">"
          else L " />")
  end.

Definition str_eqb (x y : str) : bool :=
  if list_eq_dec ascii_dec x y then true else false.

(** [e.findall(t)]: the children of [e] with tag [t], in document order. *)
Definition findall (e : Element) (t : str) : list Element :=
  filter (fun c => str_eqb (tag c) t) (children e).

(** [ET.tostring(e, encoding="unicode")] *)
Definition tostring (e : Element) : str := _serialize_xml e.

End ET.

(** ** The script *)

Import Re Datetime ET.

Definition BASE_URL : str := L "https://weekly.hatnote.com/archive/en/".
Definition FEED_TITLE : str := L "Weeklypedia".
Definition FEED_DESCRIPTION : str :=
  L "The most edited Wikipedia articles and discussions from the last week".
Definition FEED_LINK : str := L "https://weekly.hatnote.com/".

(** An issue: the dictionary [parse_issues] builds, with the key
    [content] that [main] adds to some of them ([None] where the key is
    missing or holds [None]). *)
Record issue : Type := mk_issue {
  url : str;
  title : str;
  date : datetime;
  date_text : str;
  content : option str
}.

(** *** [parse_issues] *)

(** [<a href="(\d{8}/weeklypedia_\d{8}\.html)">([^<]+)</a>] *)
Definition pattern : regex :=
  (Lit (L "<a href=" ++ [dquote]) >>
   Grp 1 (Rep 8 (Cls digit) >> Lit (L "/weeklypedia_") >>
          Rep 8 (Cls digit) >> Lit (L ".html")) >>
   Lit (dquote :: L ">") >>
   Grp 2 (PlusG (not_ch "<")) >>
   Lit (L "</a>"))%re.

(** [(\d{8})] *)
Definition date_pattern : regex := Grp 1 (Rep 8 (Cls digit)).

(** One turn of the loop over the matches. *)
Definition parse_issues_body (issues : list issue) (m : str * str)
  : result (list issue) :=
  let (path, date_text) := m in
  match search date_pattern path with
  | Some date_match =>
      let date_str := group 1 (fst date_match) in
      try_except_ValueError
        (pub_date <- strptime date_str ;;
         Ok (issues ++ [ {| url := BASE_URL ++ path;
                            title := L "Weeklypedia - " ++ strip date_text;
                            date := pub_date;
                            date_text := strip date_text;
                            content := None |} ]))
        (Ok issues)                                   (* continue *)
  | None => Ok issues
  end.

Definition parse_issues (html : str) : result (list issue) :=
  let matches := findall2 pattern html in
  for_each matches parse_issues_body [].

(** *** [extract_content] *)

(** [<body[^>]*>(.*?)</body>] under [re.DOTALL] *)
Definition body_pattern : regex :=
  (Lit (L "<body") >> StarG (not_ch ">") >> Lit (L ">") >>
   Grp 1 (StarL any) >> Lit (L "</body>"))%re.

(** [<ol[^>]*>.*?</ol>] under [re.DOTALL] *)
Definition ol_pattern : regex :=
  (Lit (L "<ol") >> StarG (not_ch ">") >> Lit (L ">") >>
   StarL any >> Lit (L "</ol>"))%re.

(** [<h2[^>]*>([^<]+)</h2>(.*?<ol[^>]*>.*?</ol>)] under [re.DOTALL] *)
Definition section_pattern : regex :=
  (Lit (L "<h2") >> StarG (not_ch ">") >> Lit (L ">") >>
   Grp 1 (PlusG (not_ch "<")) >> Lit (L "</h2>") >>
   Grp 2 (StarL any >> ol_pattern))%re.

Definition section_names : list str :=
  [L "Articles"; L "New Articles"; L "Discussions"].

(** [x in xs] on a list of strings. *)
Definition str_in (x : str) (xs : list str) : bool :=
  existsb (fun y => if list_eq_dec ascii_dec x y then true else false) xs.

(** One turn of the loop over the sections found. *)
Definition extract_content_body (sections : list str) (m : str * str)
  : list str :=
  let (title, content) := m in
  let title := strip title in
  if str_in title section_names then
    match search ol_pattern content with
    | Some ol_match =>
        sections ++ [L "<h3>" ++ title ++ L "</h3>" ++ [newline]
                     ++ group 0 (fst ol_match)]
    | None => sections
    end
  else sections.

Definition extract_content (html : str) : option str :=
  match search body_pattern html with
  | None => None
  | Some body_match =>
      let body := group 1 (fst body_match) in
      let matches := findall2 section_pattern body in
      let sections := fold_left extract_content_body matches [] in
      match sections with
      | [] => None
      | _ :: _ => Some (join [newline] sections)
      end
  end.

(** *** [generate_rss] *)

(** [d.strftime("%a, %d %b %Y 12:00:00 GMT")] *)
Definition strftime (d : datetime) : str :=
  fmt_a d ++ L ", " ++ fmt_d d ++ L " " ++ fmt_b d ++ L " " ++ fmt_Y d
  ++ L " 12:00:00 GMT".

(** [xs[:stop]] *)
Definition slice_to {A : Type} (xs : list A) (stop : Z) : list A :=
  if (0 <=? stop)%Z then firstn (Z.to_nat stop) xs
  else firstn (length xs - Z.to_nat (- stop)) xs.

Definition fallback_description (i : issue) : str :=
  L "Weekly summary of the most edited Wikipedia articles and discussions "
  ++ L "for the week ending " ++ date_text i ++ L ".".

Definition description_of (i : issue) : Element :=
  let content := content i in
  if truthy content then
    text_elem (L "description")
              (match content with Some c => c | None => [] end)
  else text_elem (L "description") (fallback_description i).

Definition item_of (i : issue) : Element :=
  Elem (L "item") [] None
    [ text_elem (L "title") (title i);
      text_elem (L "link") (url i);
      text_elem (L "guid") (url i);
      text_elem (L "pubDate") (strftime (date i));
      description_of i ].

(** The tree before it is serialised: the channel, and the root. *)
Definition channel_tree (issues : list issue) (max_items : Z) : Element :=
  Elem (L "channel") [] None
    ([ text_elem (L "title") FEED_TITLE;
       text_elem (L "link") FEED_LINK;
       text_elem (L "description") FEED_DESCRIPTION;
       text_elem (L "language") (L "en") ]
     ++ (match issues with
         | first :: _ =>
             [text_elem (L "lastBuildDate") (strftime (date first))]
         | [] => []
         end)
     ++ map item_of (slice_to issues max_items)).

Definition rss_tree (issues : list issue) (max_items : Z) : Element :=
  Elem (L "rss") [(L "version", L "2.0")] None
    [channel_tree issues max_items].

Definition xml_declaration : str :=
  L "<?xml version=" ++ [dquote] ++ L "1.0" ++ [dquote] ++ L " encoding="
  ++ [dquote] ++ L "UTF-8" ++ [dquote] ++ L "?>" ++ [newline].

Definition generate_rss (issues : list issue) (max_items : Z) : str :=
  xml_declaration ++ tostring (rss_tree issues max_items).

Definition default_max_items : Z := 50.

(** ** The program and the world around it

    [fetch_url], [fetch_issue_content] and [main] act on the world: they
    ask the network for pages, print lines, pause and write a file.  The
    world records what was done; the network is a parameter, the answer
    it gives to the request number [k] for an address. *)

Inductive response : Type :=
| Body (text : str)            (* the page, decoded *)
| Error (message : str).       (* the exception [urlopen] or [decode] raises *)

Record world : Type := mk_world {
  requests : list str;         (* the addresses asked for, in order *)
  stdout : list str;           (* the lines printed *)
  sleeps : nat;                (* the pauses of 0.2 s taken *)
  files : list (str * str)     (* the files written, the latest first *)
}.

(** What a call leaves: a value, or an exception on its way up. *)
Inductive outcome (A : Type) : Type :=
| Returned (a : A)
| Uncaught (message : str).
Arguments Returned {A} a.
Arguments Uncaught {A} message.

Definition IO (A : Type) : Type := world -> outcome A * world.

Definition io_ret {A : Type} (a : A) : IO A := fun w => (Returned a, w).

Definition io_bind {A B : Type} (m : IO A) (k : A -> IO B) : IO B :=
  fun w =>
    match m w with
    | (Returned a, w') => k a w'
    | (Uncaught e, w') => (Uncaught e, w')
    end.

(** [try: body except Exception as e: handler(e)] *)
Definition io_try {A : Type} (body : IO A) (handler : str -> IO A) : IO A :=
  fun w =>
    match body w with
    | (Returned a, w') => (Returned a, w')
    | (Uncaught e, w') => handler e w'
    end.

Declare Scope io_scope.
Delimit Scope io_scope with io.
Notation "x <- m ;; k" := (io_bind m (fun x => k))
  (at level 90, m at next level, right associativity) : io_scope.
Notation "m ;; k" := (io_bind m (fun _ => k))
  (at level 90, right associativity) : io_scope.

(** [print(line)] *)
Definition print (line : str) : IO unit :=
  fun w => (Returned tt,
            {| requests := requests w; stdout := stdout w ++ [line];
               sleeps := sleeps w; files := files w |}).

(** [time.sleep(0.2)] *)
Definition sleep : IO unit :=
  fun w => (Returned tt,
            {| requests := requests w; stdout := stdout w;
               sleeps := S (sleeps w); files := files w |}).

(** [with open(name, "w", encoding="utf-8") as f: f.write(text)] *)
Definition write_file (name text : str) : IO unit :=
  fun w => (Returned tt,
            {| requests := requests w; stdout := stdout w;
               sleeps := sleeps w; files := (name, text) :: files w |}).

(** The file of a name as it is now. *)
Fixpoint read_file (name : str) (fs : list (str * str)) : option str :=
  match fs with
  | [] => None
  | (n, t) :: fs' => if str_eqb n name then Some t else read_file name fs'
  end.

(** An exception of the pure part of the script on its way up. *)
Definition io_lift {A : Type} (r : result A) : IO A :=
  fun w =>
    match r with
    | Ok a => (Returned a, w)
    | Raise ValueError => (Uncaught (L "ValueError"), w)
    end.

(** [str(n)] for an integer, as an f-string prints it. *)
Definition decimal (n : Z) : str :=
  L (DecimalString.NilEmpty.string_of_int (Z.to_int n)).

Definition ARCHIVE_URL : str :=
  L "https://weekly.hatnote.com/archive/en/index.html".

Definition FETCH_CONTENT_COUNT : Z := 10.

(** [issues[i]["content"] = c] *)
Fixpoint set_content (i : nat) (c : option str) (issues : list issue)
  : list issue :=
  match issues, i with
  | [], _ => []
  | x :: xs, O =>
      {| url := url x; title := title x; date := date x;
         date_text := date_text x; content := c |} :: xs
  | x :: xs, S i' => x :: set_content i' c xs
  end.

Section Program.

Variable network : nat -> str -> response.

Local Open Scope io_scope.

Definition fetch_url (url : str) : IO str :=
  fun w =>
    let w' := {| requests := requests w ++ [url]; stdout := stdout w;
                 sleeps := sleeps w; files := files w |} in
    match network (length (requests w)) url with
    | Body text => (Returned text, w')
    | Error message => (Uncaught message, w')
    end.

Definition fetch_issue_content (url : str) : IO (option str) :=
  io_try
    (html <- fetch_url url ;;
     io_ret (extract_content html))
    (fun e =>
       print (L "  Warning: Failed to fetch " ++ url ++ L ": " ++ e) ;;
       io_ret None).

(** The loop of [main] over [enumerate(issues[:FETCH_CONTENT_COUNT])]:
    [slice] is what is left of the slice, [i] the index of its first
    element, [issues] the list whose dictionaries the loop writes to. *)
Fixpoint main_loop (i : nat) (slice : list issue) (issues : list issue)
  : IO (list issue) :=
  match slice with
  | [] => io_ret issues
  | issue :: slice' =>
      print (L "  [" ++ decimal (Z.of_nat i + 1) ++ L "/"
             ++ decimal FETCH_CONTENT_COUNT ++ L "] " ++ date_text issue) ;;
      c <- fetch_issue_content (url issue) ;;
      sleep ;;
      main_loop (S i) slice' (set_content i c issues)
  end.

Definition main : IO unit :=
  print (L "Fetching Weeklypedia archive...") ;;
  html <- fetch_url ARCHIVE_URL ;;
  print (L "Parsing issues...") ;;
  issues <- io_lift (parse_issues html) ;;
  print (L "Found " ++ decimal (Z.of_nat (length issues)) ++ L " issues") ;;
  print (L "Fetching content for " ++ decimal FETCH_CONTENT_COUNT
         ++ L " most recent issues...") ;;
  issues <- main_loop 0 (slice_to issues FETCH_CONTENT_COUNT) issues ;;
  print (L "Generating RSS feed...") ;;
  write_file (L "feed.xml") (generate_rss issues default_max_items) ;;
  print (L "Written to feed.xml").

End Program.

(** ** The vocabulary of the statements *)

(** An 8-digit token, and a link text the pattern accepts. *)
Definition token (d : str) : Prop :=
  length d = 8 /\ forallb digit d = true.

Definition label_ok (l : str) : Prop :=
  l <> [] /\ forallb (not_ch "<") l = true.

(** The relative path [<d1>/weeklypedia_<d2>.html] and the anchor element
    that links to a path. *)
Definition path_of (d1 d2 : str) : str :=
  d1 ++ L "/weeklypedia_" ++ d2 ++ L ".html".

Definition anchor (path label : str) : str :=
  L "<a href=" ++ [dquote] ++ path ++ dquote :: L ">" ++ label ++ L "</a>".

(** The date an 8-character token spells, read as YYYYMMDD, and what makes
    a date one of the calendar: a year from 1 to 9999 (the years a
    [datetime] has), a month from 1 to 12 and a day that month has. *)
Definition token_date (d : str) : datetime :=
  mk_datetime (int (firstn 4 d)) (int (firstn 2 (skipn 4 d)))
              (int (skipn 6 d)).

Definition leap_year (y : Z) : bool :=
  ((y mod 4 =? 0) && (negb (y mod 100 =? 0) || (y mod 400 =? 0)))%Z.

Definition days_in (y m : Z) : Z :=
  if ((m =? 4) || (m =? 6) || (m =? 9) || (m =? 11))%Z then 30%Z
  else if (m =? 2)%Z then (if leap_year y then 29%Z else 28%Z)
  else 31%Z.

Definition calendar_date (d : datetime) : bool :=
  ((1 <=? year d) && (year d <=? 9999)
   && (1 <=? month d) && (month d <=? 12)
   && (1 <=? day d) && (day d <=? days_in (year d) (month d)))%Z.

(** The two-digit month and day a four-digit tail may spell. *)
Definition md_valid (e f g h : ascii) : bool :=
  ((1 <=? int [e; f]) && (int [e; f] <=? 12)
   && (1 <=? int [g; h]) && (int [g; h] <=? 31))%Z.

Definition md_parse (s : str) : option caps :=
  match hd_error (run (Seq (Grp 2 month_regex) (Grp 3 day_regex)) s []) with
  | Some (c, []) => Some c
  | _ => None
  end.

Definition opt_caps_eq_dec (x y : option caps) : {x = y} + {x <> y}.
Proof. repeat decide equality. Defined.

Definition md_check (e f g h : ascii) : bool :=
  if opt_caps_eq_dec (md_parse [e; f; g; h])
       (if md_valid e f g h then Some [(3, [g; h]); (2, [e; f])] else None)
  then true else false.

Definition digits : list ascii := L "0123456789".

(** The descriptor of an issue, and what one match of the pattern
    contributes to the result: the descriptor dated by the first eight
    characters of the path when they spell a date of the calendar, and
    nothing otherwise. *)
Definition descriptor (path label : str) (d : datetime) : issue :=
  {| url := BASE_URL ++ path;
     title := L "Weeklypedia - " ++ strip label;
     date := d;
     date_text := strip label;
     content := None |}.

Definition entry (m : str * str) : list issue :=
  let d := token_date (firstn 8 (fst m)) in
  if calendar_date d then [descriptor (fst m) (snd m) d] else [].

(** A text in which the pattern finds nothing. *)
Definition no_anchor (s : str) : Prop := search pattern s = None.

(** An index page: anchors, each after a stretch of text without anchors,
    and a last such stretch. *)
Definition index_entry : Type := (str * (str * str * str))%type.

Definition entry_ok (e : index_entry) : Prop :=
  let '(gap, (d1, d2, label)) := e in
  no_anchor gap /\ token d1 /\ token d2 /\ label_ok label.

Fixpoint index (es : list index_entry) (tail : str) : str :=
  match es with
  | [] => tail
  | (gap, (d1, d2, label)) :: es' =>
      gap ++ anchor (path_of d1 d2) label ++ index es' tail
  end.

Definition index_issues (e : index_entry) : list issue :=
  let '(_, (d1, d2, label)) := e in
  if calendar_date (token_date d1)
  then [descriptor (path_of d1 d2) label (token_date d1)] else [].

(** White space only, and a text that neither begins nor ends with white
    space. *)
Definition blank (s : str) : Prop := forallb isspace s = true.

Definition trimmed (t : str) : Prop :=
  match t with a :: _ => isspace a = false | [] => True end /\
  match rev t with a :: _ => isspace a = false | [] => True end.

(** The words of the claims on [extract_content]: a text with a body
    region, an ordered-list element, a recognised section name; the body
    region the function isolates, the sections it keeps and how it wraps
    them. *)
Definition has_body (html : str) : Prop :=
  exists pre attrs inner post,
    html = pre ++ L "<body" ++ attrs ++ L ">" ++ inner ++ L "</body>" ++ post /\
    forallb (not_ch ">") attrs = true.

Definition is_ol (w : str) : Prop :=
  exists attrs inner,
    w = L "<ol" ++ attrs ++ L ">" ++ inner ++ L "</ol>" /\
    forallb (not_ch ">") attrs = true.

Definition recognized (t : str) : Prop :=
  t = L "Articles" \/ t = L "New Articles" \/ t = L "Discussions".

Definition body_of (html : str) : option str :=
  option_map (fun m => group 1 (fst m)) (search body_pattern html).

Definition kept (m : str * str) : bool :=
  str_in (strip (fst m)) section_names.

Definition ol_of (content : str) : str :=
  match search ol_pattern content with
  | Some m => group 0 (fst m)
  | None => []
  end.

Definition wrapped (m : str * str) : str :=
  L "<h3>" ++ strip (fst m) ++ L "</h3>" ++ [newline] ++ ol_of (snd m).

(** How many of [n] issues the slice [[:max_items]] keeps. *)
Definition item_count (n : nat) (max_items : Z) : nat :=
  if (0 <=? max_items)%Z then Nat.min (Z.to_nat max_items) n
  else n - Z.to_nat (- max_items).

(** A character [ET.tostring] writes as it is. *)
Definition plain (a : ascii) : bool :=
  negb (Ascii.eqb a "&") && negb (Ascii.eqb a "<") && negb (Ascii.eqb a ">").

(** The [lastBuildDate] element as it is written. *)
Definition last_build_text (issues : list issue) : str :=
  match issues with
  | [] => []
  | first :: _ =>
      L "<lastBuildDate>" ++ strftime (date first) ++ L "</lastBuildDate>"
  end.

(** The words of the statements on the program: the content the page of
    an address gives when it is asked for as request number [k]; an issue
    with its content set; the issues after the first [n] of them were
    given the content of their pages, asked for as requests [k], [k+1],
    ...; and the lines the loop prints. *)
Definition page_content (network : nat -> str -> response) (k : nat)
  (url : str) : option str :=
  match network k url with
  | Body text => extract_content text
  | Error _ => None
  end.

Definition with_content (c : option str) (x : issue) : issue :=
  {| url := url x; title := title x; date := date x;
     date_text := date_text x; content := c |}.

Fixpoint enriched (network : nat -> str -> response) (k n : nat)
  (issues : list issue) : list issue :=
  match n, issues with
  | S n', x :: xs =>
      with_content (page_content network k (url x)) x
      :: enriched network (S k) n' xs
  | _, _ => issues
  end.

Definition warning_line (url e : str) : str :=
  L "  Warning: Failed to fetch " ++ url ++ L ": " ++ e.

Definition progress_line (i : nat) (x : issue) : str :=
  L "  [" ++ decimal (Z.of_nat i + 1) ++ L "/10] " ++ date_text x.

Fixpoint loop_lines (network : nat -> str -> response) (k i : nat)
  (slice : list issue) : list str :=
  match slice with
  | [] => []
  | x :: slice' =>
      progress_line i x
      :: match network k (url x) with
         | Body _ => []
         | Error e => [warning_line (url x) e]
         end
      ++ loop_lines network (S k) (S i) slice'
  end.

(** Reading character data back: the three entities the serialiser writes
    stand for [&], [<] and [>]; [skip] counts the characters of an entity
    still to pass over. *)
Fixpoint unescape (s : str) (skip : nat) : str :=
  match s with
  | [] => []
  | a :: s' =>
      match skip with
      | S k => unescape s' k
      | O =>
          if Ascii.eqb a "&" then
            match strip_prefix (L "amp;") s',
                  strip_prefix (L "lt;") s',
                  strip_prefix (L "gt;") s' with
            | Some _, _, _ => "&"%char :: unescape s' 4
            | _, Some _, _ => "<"%char :: unescape s' 3
            | _, _, Some _ => ">"%char :: unescape s' 3
            | _, _, _ => a :: unescape s' 0
            end
          else a :: unescape s' 0
      end
  end.

(** A character that cannot open or close a tag. *)
Definition no_angle (a : ascii) : bool :=
  negb (Ascii.eqb a "<") && negb (Ascii.eqb a ">").

(** The text of the description of an issue. *)
Definition description_body (i : issue) : str :=
  match content i with
  | Some (a :: c) => a :: c
  | _ =>
      L "Weekly summary of the most edited Wikipedia articles and discussions for the week ending "
      ++ date_text i ++ L "."
  end.



(** A text that begins with an opening [<body ...>] tag that has a
    closing tag after it. *)
Definition has_body_here (s : str) : Prop :=
  exists attrs inner post,
    s = L "<body" ++ attrs ++ L ">" ++ inner ++ L "</body>" ++ post /\
    forallb (not_ch ">") attrs = true.

(** Reading a document back.  The reader takes the documents the
    serialiser writes: elements with a name, attributes in double quotes,
    character data with the three entities, children, and no text after a
    child. *)
Definition name_char (a : ascii) : bool :=
  let n := nat_of_ascii a in
  ((65 <=? n) && (n <=? 90)) || ((97 <=? n) && (n <=? 122))
  || ((48 <=? n) && (n <=? 57)) || (n =? 95).















(** ** Sample inputs *)

(** An anchor whose two tokens differ and whose text has blanks at both
    ends, one whose token is no date, and a small index page. *)
Definition jan2 : str := L "20250102".
Definition jan9 : str := L "20250109".
Definition nines : str := L "99999999".

Definition mixed_anchor : str :=
  anchor (path_of jan2 jan9) (L " Jan 2, 2025 ").

Definition mixed_issue : issue :=
  {| url := L "https://weekly.hatnote.com/archive/en/20250102/weeklypedia_20250109.html";
     title := L "Weeklypedia - Jan 2, 2025";
     date := mk_datetime 2025 1 2;
     date_text := L "Jan 2, 2025";
     content := None |}.

Definition jan9_issue : issue :=
  {| url := L "https://weekly.hatnote.com/archive/en/20250109/weeklypedia_20250109.html";
     title := L "Weeklypedia - Jan 9, 2025";
     date := mk_datetime 2025 1 9;
     date_text := L "Jan 9, 2025";
     content := None |}.

Definition sample_index : list index_entry :=
  [ (L "<ul><li>", (jan9, jan9, L "Jan 9, 2025"));
    (L "</li><li>", (nines, nines, L "never"));
    (L "</li><li>", (jan2, jan9, L " Jan 2, 2025 "));
    (L "</li><li>", (jan9, jan9, L "Jan 9, 2025")) ].

Definition sample_page : str :=
  L "<html><body class=x><h2 id=a> Articles </h2><p>gap</p><ol><li>a</li></ol><h2>Random Section</h2><ol>x</ol><h2>Discussions</h2><ol>d</ol>tail</body></html>".

Definition sample_body : str :=
  L "<h2 id=a> Articles </h2><p>gap</p><ol><li>a</li></ol><h2>Random Section</h2><ol>x</ol><h2>Discussions</h2><ol>d</ol>tail".

Definition sample_fragment : str :=
  L "<h3>Articles</h3>" ++ [newline] ++ L "<ol><li>a</li></ol>" ++ [newline]
  ++ L "<h3>Discussions</h3>" ++ [newline] ++ L "<ol>d</ol>".

(** An issue with extracted content, and the feed [generate_rss] makes of
    it. *)
Definition content_issue : issue :=
  {| url := L "https://weekly.hatnote.com/archive/en/20250102/weeklypedia_20250102.html";
     title := L "Weeklypedia - Jan 2, 2025";
     date := mk_datetime 2025 1 2;
     date_text := L "Jan 2, 2025";
     content := Some (L "<h3>Articles</h3>" ++ [newline] ++ L "<ol><li>x</li></ol>") |}.

Definition feed_head : str :=
  xml_declaration ++ L "<rss version=" ++ [dquote] ++ L "2.0" ++ [dquote]
  ++ L "><channel><title>Weeklypedia</title><link>https://weekly.hatnote.com/</link><description>The most edited Wikipedia articles and discussions from the last week</description><language>en</language>".

Definition empty_feed : str := feed_head ++ L "</channel></rss>".

Definition content_feed : str :=
  feed_head
  ++ L "<lastBuildDate>Thu, 02 Jan 2025 12:00:00 GMT</lastBuildDate><item><title>Weeklypedia - Jan 2, 2025</title><link>https://weekly.hatnote.com/archive/en/20250102/weeklypedia_20250102.html</link><guid>https://weekly.hatnote.com/archive/en/20250102/weeklypedia_20250102.html</guid><pubDate>Thu, 02 Jan 2025 12:00:00 GMT</pubDate><description>&lt;h3&gt;Articles&lt;/h3&gt;"
  ++ [newline]
  ++ L "&lt;ol&gt;&lt;li&gt;x&lt;/li&gt;&lt;/ol&gt;</description></item></channel></rss>".

(** A network on which nothing can be reached, one that serves the index
    of the sample and then fails once, and a world in which nothing has
    happened yet. *)
Definition network_down (k : nat) (url : str) : response :=
  Error (L "<urlopen error timed out>").

Definition sample_network (k : nat) (url : str) : response :=
  match k with
  | 0 => Body (index sample_index (L "</li></ul>"))
  | 1 => Error (L "HTTP Error 404: Not Found")
  | _ => Body sample_page
  end.

Definition new_world : world :=
  {| requests := []; stdout := []; sleeps := 0; files := [] |}.

(** * Properties *)

(** ** Strings *)

Section StringFacts.

Lemma strip_prefix_spec (p s s' : str) :
  strip_prefix p s = Some s' <-> s = p ++ s'.
Proof.
  revert s; induction p as [|a p IH]; intros s; simpl.
  - split; [intros [= ->]; reflexivity | intros ->; reflexivity].
  - destruct s as [|b s]; [split; discriminate|].
    destruct (Ascii.eqb_spec a b) as [->|Hne].
    + rewrite IH; split; [intros ->; reflexivity | intros [= ->]; reflexivity].
    + split; [discriminate | intros [= -> _]; contradiction].
Qed.

Lemma strip_prefix_app (p s : str) : strip_prefix p (p ++ s) = Some s.
Proof. apply strip_prefix_spec; reflexivity. Qed.

Lemma consumed_app (w rest : str) : consumed (w ++ rest) rest = w.
Proof.
  unfold consumed; rewrite length_app.
  replace (length w + length rest - length rest) with (length w) by lia.
  rewrite firstn_app, firstn_all, Nat.sub_diag; simpl; apply app_nil_r.
Qed.

Lemma hd_error_map {A B : Type} (f : A -> B) (l : list A) :
  hd_error (map f l) = option_map f (hd_error l).
Proof. destruct l; reflexivity. Qed.

Lemma hd_error_In {A : Type} (l : list A) (x : A) :
  hd_error l = Some x -> In x l.
Proof. destruct l; simpl; [discriminate | intros [= ->]; left; reflexivity]. Qed.

Lemma hd_error_single {A : Type} (l : list A) (x : A) :
  length l <= 1 -> In x l -> hd_error l = Some x.
Proof.
  destruct l as [|y [|z l]]; simpl; intros Hlen Hin.
  - contradiction.
  - destruct Hin as [->|[]]; reflexivity.
  - lia.
Qed.

End StringFacts.

(** ** The matcher is the declarative semantics, in its order *)

Module ReFacts.
Import Re.

Lemma greedy_spec (p : ascii -> bool) (s rest : str) :
  In rest (greedy p s) <-> exists w, s = w ++ rest /\ forallb p w = true.
Proof.
  revert rest; induction s as [|a s IH]; intros rest; simpl.
  - split.
    + intros [<-|[]]; exists []; auto.
    + intros (w & Hw & _); symmetry in Hw; apply app_eq_nil in Hw as [_ ->]; auto.
  - rewrite in_app_iff; simpl; split.
    + intros [Hin|[<-|[]]].
      * destruct (p a) eqn:Hp; [|contradiction].
        apply IH in Hin as (w & -> & Hw).
        exists (a :: w); simpl; rewrite Hp; auto.
      * exists []; auto.
    + intros ([|b w] & Hw & Hall); simpl in *.
      * right; left; congruence.
      * injection Hw as <- ->. apply andb_true_iff in Hall as [-> Hall].
        left; apply IH; eauto.
Qed.

Lemma lazy_spec (p : ascii -> bool) (s rest : str) :
  In rest (lazy p s) <-> exists w, s = w ++ rest /\ forallb p w = true.
Proof.
  revert rest; induction s as [|a s IH]; intros rest; simpl.
  - split.
    + intros [<-|[]]; exists []; auto.
    + intros (w & Hw & _); symmetry in Hw; apply app_eq_nil in Hw as [_ ->]; auto.
  - split.
    + intros [<-|Hin].
      * exists []; auto.
      * destruct (p a) eqn:Hp; [|contradiction].
        apply IH in Hin as (w & -> & Hw).
        exists (a :: w); simpl; rewrite Hp; auto.
    + intros ([|b w] & Hw & Hall); simpl in *.
      * left; congruence.
      * injection Hw as <- ->. apply andb_true_iff in Hall as [-> Hall].
        right; apply IH; eauto.
Qed.

(** Every entry of [run] is a match, and every match is an entry. *)
Theorem run_spec (r : regex) (s : str) (c c' : caps) (rest : str) :
  In (c', rest) (run r s c) <->
  exists w, s = w ++ rest /\ matches r w c c'.
Proof.
  revert s c c' rest; induction r as [l|p|r1 IH1 r2 IH2|r1 IH1 r2 IH2|p|p|n r IH|i r IH];
    intros s c c' rest.
  - (* Lit *)
    simpl. destruct (strip_prefix l s) as [s'|] eqn:E.
    + apply strip_prefix_spec in E; subst s. simpl; split.
      * intros [[= <- <-]|[]]; exists l; auto.
      * intros (w & Hw & -> & ->). apply app_inv_head in Hw; subst; auto.
    + split; [intros []|].
      intros (w & Hw & -> & _). rewrite Hw, strip_prefix_app in E; discriminate.
  - (* Cls *)
    simpl. destruct s as [|a s].
    + split; [intros []|]. intros (w & Hw & (b & -> & _) & _); discriminate.
    + destruct (p a) eqn:Hp; simpl.
      * split.
        -- intros [[= <- <-]|[]]; exists [a]; eauto.
        -- intros (w & Hw & (b & -> & _) & ->). injection Hw as -> ->; auto.
      * split; [intros []|].
        intros (w & Hw & (b & -> & Hb) & _). injection Hw as -> _; congruence.
  - (* Seq *)
    simpl. rewrite in_flat_map; split.
    + intros ([cm sm] & H1 & H2); simpl in H2.
      apply IH1 in H1 as (w1 & -> & M1). apply IH2 in H2 as (w2 & -> & M2).
      exists (w1 ++ w2); rewrite app_assoc; eauto 8.
    + intros (w & -> & w1 & w2 & cm & -> & M1 & M2).
      exists (cm, w2 ++ rest); split.
      * apply IH1; exists w1; rewrite app_assoc; auto.
      * simpl; apply IH2; eauto.
  - (* Alt *)
    simpl. rewrite in_app_iff, IH1, IH2; split.
    + intros [(w & ? & ?)|(w & ? & ?)]; exists w; auto.
    + intros (w & ? & [?|?]); [left|right]; eauto.
  - (* StarG *)
    simpl. rewrite in_map_iff; split.
    + intros (x & [= <- <-] & Hin). apply greedy_spec in Hin as (w & ? & ?); eauto.
    + intros (w & ? & ? & ->). exists rest; split; auto. apply greedy_spec; eauto.
  - (* StarL *)
    simpl. rewrite in_map_iff; split.
    + intros (x & [= <- <-] & Hin). apply lazy_spec in Hin as (w & ? & ?); eauto.
    + intros (w & ? & ? & ->). exists rest; split; auto. apply lazy_spec; eauto.
  - (* Rep *)
    simpl. revert s c c' rest; induction n as [|n IHn]; intros s c c' rest.
    + simpl; split.
      * intros [[= <- <-]|[]]; exists []; auto.
      * intros (w & -> & -> & ->); auto.
    + rewrite in_flat_map; split.
      * intros ([cm sm] & H1 & H2); simpl in H2.
        apply IH in H1 as (w1 & -> & M1). apply IHn in H2 as (w2 & -> & M2).
        exists (w1 ++ w2); rewrite app_assoc; eauto 8.
      * intros (w & -> & w1 & w2 & cm & -> & M1 & M2).
        exists (cm, w2 ++ rest); split.
        -- apply IH; exists w1; rewrite app_assoc; auto.
        -- simpl; apply IHn; eauto.
  - (* Grp *)
    simpl. rewrite in_map_iff; split.
    + intros ([cm sm] & [= <- <-] & Hin); simpl.
      apply IH in Hin as (w & -> & M). exists w; split; auto.
      rewrite consumed_app; eauto.
    + intros (w & -> & cm & M & ->).
      exists (cm, rest); simpl; rewrite consumed_app; split; auto.
      apply IH; eauto.
Qed.

(** *** Patterns with at most one match at a position *)

Lemma flat_map_map {A B C : Type} (f : B -> list C) (g : A -> B) (l : list A) :
  flat_map f (map g l) = flat_map (fun x => f (g x)) l.
Proof. induction l; simpl; congruence. Qed.

Lemma flat_map_le1 {A B : Type} (f : A -> list B) (l : list A) :
  length l <= 1 -> (forall x, length (f x) <= 1) ->
  length (flat_map f l) <= 1.
Proof.
  destruct l as [|x [|y l]]; simpl; intros Hl Hf; try lia.
  rewrite app_nil_r; apply Hf.
Qed.

Lemma det_Lit (l : str) : det (Lit l).
Proof. intros s c; simpl; destruct (strip_prefix l s); simpl; lia. Qed.

Lemma det_Cls (p : ascii -> bool) : det (Cls p).
Proof. intros [|a s] c; simpl; [lia|]; destruct (p a); simpl; lia. Qed.

Lemma det_Seq (r1 r2 : regex) : det r1 -> det r2 -> det (Seq r1 r2).
Proof.
  intros H1 H2 s c; simpl. apply flat_map_le1; [apply H1|].
  intros m; apply H2.
Qed.

Lemma det_Rep (n : nat) (r : regex) : det r -> det (Rep n r).
Proof.
  intros H; induction n as [|n IH]; intros s c.
  - simpl; lia.
  - change (run (Rep (S n) r) s c)
      with (flat_map (fun m => run (Rep n r) (snd m) (fst m)) (run r s c)).
    apply flat_map_le1; [apply H|]. intros m; apply IH.
Qed.

Lemma det_Grp (i : nat) (r : regex) : det r -> det (Grp i r).
Proof. intros H s c; simpl; rewrite length_map; apply H. Qed.

(** A greedy repetition followed by something that needs a character
    outside the class stops in one place only. *)
Lemma greedy_then_le1 {X : Type} (p : ascii -> bool) (a : ascii)
  (f : str -> list X) (s : str) :
  p a = false ->
  (forall s', length (f s') <= 1) ->
  (forall b s', b <> a -> f (b :: s') = []) ->
  length (flat_map f (greedy p s)) <= 1.
Proof.
  intros Hpa Hf Hne; induction s as [|x s IH]; simpl.
  - rewrite app_nil_r; apply Hf.
  - rewrite flat_map_app; simpl; rewrite app_nil_r.
    destruct (p x) eqn:Hx.
    + rewrite (Hne x s), app_nil_r; [exact IH | congruence].
    + simpl; apply Hf.
Qed.

Lemma run_Lit_cons_ne (a b : ascii) (l s : str) (c : caps) :
  b <> a -> run (Lit (a :: l)) (b :: s) c = [].
Proof.
  intros Hne; simpl. destruct (Ascii.eqb_spec a b); [congruence | reflexivity].
Qed.

Lemma det_Grp_PlusG_then (i : nat) (p : ascii -> bool) (a : ascii) (l : str) :
  p a = false -> det (Seq (Grp i (PlusG p)) (Lit (a :: l))).
Proof.
  intros Hpa s c. simpl run.
  destruct s as [|x s]; [simpl; lia|].
  destruct (p x); [|simpl; lia].
  simpl flat_map at 2. rewrite app_nil_r, !flat_map_map.
  apply greedy_then_le1 with (a := a); auto.
  - intros s'; apply (det_Lit (a :: l)).
  - intros b s' Hb; apply run_Lit_cons_ne; exact Hb.
Qed.

(** *** [match_at], [search] and [scan] *)

Lemma match_at_sound (r : regex) (s : str) (c : caps) (rest : str) :
  match_at r s = Some (c, rest) ->
  exists w c', s = w ++ rest /\ matches r w [] c' /\ c = (0, w) :: c'.
Proof.
  intros H; apply hd_error_In, run_spec in H as (w & -> & cm & M & ->).
  eauto.
Qed.

Lemma match_at_det (r : regex) (w rest : str) (c' : caps) :
  det r -> matches r w [] c' ->
  match_at r (w ++ rest) = Some ((0, w) :: c', rest).
Proof.
  intros Hd M; apply hd_error_single; [apply det_Grp, Hd|].
  apply run_spec; exists w; split; [reflexivity|]. simpl; eauto.
Qed.

Lemma match_at_None (r : regex) (s : str) :
  match_at r s = None <->
  forall w rest c', s = w ++ rest -> ~ matches r w [] c'.
Proof.
  unfold match_at; split.
  - intros H w rest c' -> M.
    assert (Hin : In ((0, w) :: c', rest) (run (Grp 0 r) (w ++ rest) [])).
    { apply run_spec; exists w; split; [reflexivity|]; simpl; eauto. }
    destruct (run (Grp 0 r) (w ++ rest) []); [destruct Hin | discriminate].
  - intros H. destruct (run (Grp 0 r) s []) as [|[c rest] l] eqn:E; [reflexivity|].
    assert (Hin : In (c, rest) (run (Grp 0 r) s [])) by (rewrite E; left; reflexivity).
    apply run_spec in Hin as (w & -> & cm & M & _). destruct (H _ _ _ eq_refl M).
Qed.

Lemma search_here (r : regex) (s : str) (m : caps * str) :
  match_at r s = Some m -> search r s = Some m.
Proof. intros H; destruct s; simpl; rewrite H; reflexivity. Qed.

(** [search] reports a match at some position. *)
Lemma search_Some (r : regex) (s : str) (m : caps * str) :
  search r s = Some m ->
  exists s1 s2, s = s1 ++ s2 /\ match_at r s2 = Some m /\
    forall t1 t2, s = t1 ++ t2 -> length t1 < length s1 -> match_at r t2 = None.
Proof.
  induction s as [|a s IH]; simpl.
  - destruct (match_at r []) eqn:E; [|discriminate].
    intros [= <-]; exists [], []; repeat split; auto. simpl; intros; lia.
  - destruct (match_at r (a :: s)) eqn:E.
    + intros [= <-]; exists [], (a :: s); repeat split; auto. simpl; intros; lia.
    + intros H; apply IH in H as (s1 & s2 & -> & Hm & Hleft).
      exists (a :: s1), s2; repeat split; auto.
      intros [|b t1] t2 Heq Hlen; simpl in *.
      * subst t2; exact E.
      * injection Heq as <- Heq. apply (Hleft t1 t2 Heq). lia.
Qed.

(** [search] fails exactly when no position has a match. *)
Lemma search_None (r : regex) (s : str) :
  search r s = None <-> forall s1 s2, s = s1 ++ s2 -> match_at r s2 = None.
Proof.
  induction s as [|a s IH]; simpl.
  - destruct (match_at r []) eqn:E; split; try discriminate; auto.
    + intros H; rewrite (H [] [] eq_refl) in E; discriminate.
    + intros _ s1 s2 Heq. symmetry in Heq; apply app_eq_nil in Heq as [_ ->]; exact E.
  - destruct (match_at r (a :: s)) eqn:E; split; try discriminate.
    + intros H; rewrite (H [] _ eq_refl) in E; discriminate.
    + intros H [|b s1] s2 Heq; simpl in Heq.
      * subst s2; exact E.
      * injection Heq as <- Heq. exact (proj1 IH H _ _ Heq).
    + intros H; apply IH; intros s1 s2 ->. apply (H (a :: s1) s2); reflexivity.
Qed.

(** Every match [scan] reports is a match at some position. *)
Lemma scan_In (r : regex) (s : str) (k : nat) (c : caps) :
  In c (scan r s k) ->
  exists s1 s2 rest, s = s1 ++ s2 /\ match_at r s2 = Some (c, rest).
Proof.
  revert k; induction s as [|a s IH]; intros k; simpl; [intros []|].
  assert (Hstep : forall k', In c (scan r s k') ->
            exists s1 s2 rest, a :: s = s1 ++ s2 /\ match_at r s2 = Some (c, rest)).
  { intros k' H; apply IH in H as (s1 & s2 & rest & -> & Hm).
    exists (a :: s1), s2, rest; auto. }
  destruct k as [|k]; [|apply Hstep].
  destruct (match_at r (a :: s)) as [[c0 rest]|] eqn:E; [|apply Hstep].
  intros [<-|H]; [|eapply Hstep; exact H].
  exists [], (a :: s), rest; auto.
Qed.

(** Positions still inside the previous match are passed over. *)
Lemma scan_skip (r : regex) (x y : str) :
  scan r (x ++ y) (length x) = scan r y 0.
Proof. induction x as [|a x IH]; simpl; [reflexivity | exact IH]. Qed.

(** No position has a match: [scan] reports nothing. *)
Lemma scan_nil (r : regex) (s : str) (k : nat) :
  (forall s1 s2, s = s1 ++ s2 -> match_at r s2 = None) -> scan r s k = [].
Proof.
  revert k; induction s as [|a s IH]; intros k H; simpl; [reflexivity|].
  assert (Hs : forall k', scan r s k' = []).
  { intros k'; apply IH; intros s1 s2 ->; apply (H (a :: s1) s2); reflexivity. }
  destruct k; [|apply Hs]. rewrite (H [] (a :: s) eq_refl). apply Hs.
Qed.

Lemma scan_cons (r : regex) (a : ascii) (s : str) (k : nat) :
  scan r (a :: s) k =
  match k with
  | S k' => scan r s k'
  | O =>
      match match_at r (a :: s) with
      | Some (c, rest) => c :: scan r s (length (a :: s) - length rest - 1)
      | None => scan r s 0
      end
  end.
Proof. reflexivity. Qed.

(** When the matches that begin inside [x] are the same with and without
    the text [y] after it, the scan of [x ++ y] is the scan of [x]
    followed by the scan of [y]. *)
Lemma scan_app (r : regex) (x y : str) (k : nat) :
  (forall x1 x2, x = x1 ++ x2 -> x2 <> [] ->
     match_at r (x2 ++ y)
     = option_map (fun m => (fst m, snd m ++ y)) (match_at r x2)) ->
  k <= length x ->
  scan r (x ++ y) k = scan r x k ++ scan r y 0.
Proof.
  revert k; induction x as [|a x IH]; intros k Hloc Hk.
  - simpl in *. replace k with 0 by lia; reflexivity.
  - assert (Hloc' : forall x1 x2, x = x1 ++ x2 -> x2 <> [] ->
              match_at r (x2 ++ y)
              = option_map (fun m => (fst m, snd m ++ y)) (match_at r x2)).
    { intros x1 x2 -> Hne; apply (Hloc (a :: x1) x2); auto. }
    rewrite <- app_comm_cons, !scan_cons.
    destruct k as [|k]; [|apply IH; [exact Hloc' | simpl in Hk; lia]].
    specialize (Hloc [] (a :: x) eq_refl ltac:(discriminate)).
    rewrite <- app_comm_cons in Hloc; rewrite Hloc.
    destruct (match_at r (a :: x)) as [[c rest]|] eqn:E; cbn [option_map fst snd].
    + apply match_at_sound in E as (w & c' & Hw & _ & _).
      assert (Hlen : length (a :: x) = length w + length rest)
        by (rewrite Hw, length_app; reflexivity).
      rewrite <- app_comm_cons; f_equal.
      replace (length (a :: x ++ y) - length (rest ++ y) - 1)
        with (length (a :: x) - length rest - 1)
        by (cbn [length] in *; rewrite !length_app; lia).
      apply IH; [exact Hloc' | cbn [length] in *; lia].
    + apply IH; [exact Hloc' | lia].
Qed.

End ReFacts.

(** ** The pattern of [parse_issues] *)

Section AnchorPattern.
Import ReFacts.

Lemma matches_Rep_Cls (n : nat) (p : ascii -> bool) (w : str) (c c' : caps) :
  matches (Rep n (Cls p)) w c c' <->
  length w = n /\ forallb p w = true /\ c' = c.
Proof.
  revert w c; induction n as [|n IH]; intros w c.
  - simpl; split; [intros [-> ->]; auto | intros (Hl & _ & ->)].
    destruct w; [auto | discriminate].
  - split.
    + intros (w1 & w2 & cm & -> & ((a & -> & Ha) & ->) & H).
      apply IH in H as (Hl & Hall & ->). simpl; rewrite Ha, Hl; auto.
    + intros (Hl & Hall & ->). destruct w as [|a w]; [discriminate|].
      simpl in Hall; apply andb_true_iff in Hall as [Ha Hall].
      exists [a], w, c; repeat split; eauto.
      apply IH; repeat split; auto.
Qed.

Lemma det_pattern : det pattern.
Proof.
  unfold pattern.
  apply det_Seq; [apply det_Lit|].
  apply det_Seq.
  - apply det_Grp; repeat apply det_Seq;
      try apply det_Lit; apply det_Rep, det_Cls.
  - apply det_Seq; [apply det_Lit|].
    apply det_Grp_PlusG_then; reflexivity.
Qed.

(** What the pattern matches: an anchor whose address is two 8-digit
    tokens around the fixed words, and whose text is not empty and has no
    [<]. *)
Lemma matches_pattern (w : str) (c' : caps) :
  matches pattern w [] c' <->
  exists d1 d2 label,
    token d1 /\ token d2 /\ label_ok label /\
    w = anchor (path_of d1 d2) label /\
    c' = [(2, label); (1, path_of d1 d2)].
Proof.
  unfold pattern; split.
  - intros (w1 & w2 & c1 & -> & [-> ->] & H).
    destruct H as (w2' & w3 & c2 & -> & (c2' & H & ->) & H3).
    destruct H as (d1 & w4 & c3 & -> & Hd1 & H).
    apply matches_Rep_Cls in Hd1 as (Hl1 & Hd1 & ->).
    destruct H as (w5 & w6 & c4 & -> & [-> ->] & H).
    destruct H as (d2 & w7 & c5 & -> & Hd2 & [-> ->]).
    apply matches_Rep_Cls in Hd2 as (Hl2 & Hd2 & ->).
    destruct H3 as (w8 & w9 & c6 & -> & [-> ->] & H).
    destruct H as (label & w10 & c7 & -> & (c7' & H & ->) & [-> ->]).
    destruct H as (l1 & l2 & c8 & -> & ((a & -> & Ha) & ->) & [Hl ->]).
    exists d1, d2, (a :: l2); unfold token, label_ok;
      repeat split; auto; try discriminate.
    simpl; rewrite Ha; exact Hl.
  - intros (d1 & d2 & label & [Hl1 Hd1] & [Hl2 Hd2] & [Hne Hlab] & -> & ->).
    destruct label as [|a label]; [contradiction|].
    simpl in Hlab; apply andb_true_iff in Hlab as [Ha Hlab].
    exists (L "<a href=" ++ [dquote]), (path_of d1 d2 ++ dquote :: L ">" ++ (a :: label) ++ L "</a>"), [].
    split; [unfold anchor; rewrite <- !app_assoc; reflexivity|].
    split; [split; reflexivity|].
    exists (path_of d1 d2), (dquote :: L ">" ++ (a :: label) ++ L "</a>"), [(1, path_of d1 d2)].
    split; [reflexivity|]. split.
    + exists []; split; [|reflexivity].
      exists d1, (L "/weeklypedia_" ++ d2 ++ L ".html"), []. split; [reflexivity|].
      split; [apply matches_Rep_Cls; auto|].
      exists (L "/weeklypedia_"), (d2 ++ L ".html"), []. split; [reflexivity|].
      split; [split; reflexivity|].
      exists d2, (L ".html"), []. split; [reflexivity|].
      split; [apply matches_Rep_Cls; auto | split; reflexivity].
    + exists (dquote :: L ">"), ((a :: label) ++ L "</a>"), [(1, path_of d1 d2)].
      split; [reflexivity|]. split; [split; reflexivity|].
      exists (a :: label), (L "</a>"), [(2, a :: label); (1, path_of d1 d2)].
      split; [reflexivity|]. split; [|split; reflexivity].
      exists [(1, path_of d1 d2)]; split; [|reflexivity].
      exists [a], label, [(1, path_of d1 d2)]. split; [reflexivity|].
      split; [split; [eauto | reflexivity] | split; auto].
Qed.

(** The match object of the pattern at a position. *)
Lemma match_at_pattern (s : str) (c : caps) (rest : str) :
  match_at pattern s = Some (c, rest) <->
  exists d1 d2 label,
    token d1 /\ token d2 /\ label_ok label /\
    s = anchor (path_of d1 d2) label ++ rest /\
    c = [(0, anchor (path_of d1 d2) label); (2, label); (1, path_of d1 d2)].
Proof.
  split.
  - intros H; apply match_at_sound in H as (w & c' & -> & M & ->).
    apply matches_pattern in M as (d1 & d2 & label & ? & ? & ? & -> & ->).
    exists d1, d2, label; auto.
  - intros (d1 & d2 & label & H1 & H2 & H3 & -> & ->).
    apply match_at_det; [apply det_pattern|].
    apply matches_pattern; exists d1, d2, label; auto.
Qed.

(** A match of the pattern is never empty, so the scan always moves on. *)
Lemma match_at_pattern_nonempty (s : str) (c : caps) (rest : str) :
  match_at pattern s = Some (c, rest) -> length rest < length s.
Proof.
  intros H; apply match_at_pattern in H as (d1 & d2 & label & _ & _ & _ & -> & _).
  rewrite length_app. unfold anchor; simpl; lia.
Qed.

End AnchorPattern.

(** ** [strptime] on an 8-digit token *)

Section Strptime.
Import ReFacts.

Lemma digit_In (a : ascii) : digit a = true -> In a digits.
Proof.
  destruct a as [[] [] [] [] [] [] [] []]; intros H; try discriminate H;
    simpl; tauto.
Qed.

Lemma digit_not_space (a : ascii) : digit a = true -> isspace a = false.
Proof.
  destruct a as [[] [] [] [] [] [] [] []]; intros H; try discriminate H;
    reflexivity.
Qed.

Lemma map_flat_map {A B C : Type} (g : B -> C) (f : A -> list B) (l : list A) :
  map g (flat_map f l) = flat_map (fun x => map g (f x)) l.
Proof. induction l; simpl; [reflexivity | rewrite map_app; congruence]. Qed.

(** The groups a pattern captures are put in front of those it was given. *)
Lemma run_shift (r : regex) (s : str) (c : caps) :
  run r s c = map (fun m => (fst m ++ c, snd m)) (run r s []).
Proof.
  revert s c;
    induction r as [l|p|r1 IH1 r2 IH2|r1 IH1 r2 IH2|p|p|n r IH|i r IH];
    intros s c.
  - simpl; destruct (strip_prefix l s); reflexivity.
  - destruct s as [|a s]; simpl; [reflexivity | destruct (p a); reflexivity].
  - simpl. rewrite (IH1 s c), flat_map_map, map_flat_map.
    apply flat_map_ext; intros [c1 s1]; simpl.
    rewrite (IH2 s1 (c1 ++ c)), (IH2 s1 c1), map_map.
    apply map_ext; intros [c2 s2]; simpl; rewrite app_assoc; reflexivity.
  - simpl. rewrite map_app, <- IH1, <- IH2; reflexivity.
  - simpl. rewrite map_map; reflexivity.
  - simpl. rewrite map_map; reflexivity.
  - revert s c; induction n as [|n IHn]; intros s c; [reflexivity|].
    change (run (Rep (S n) r) s c)
      with (flat_map (fun m => run (Rep n r) (snd m) (fst m)) (run r s c)).
    change (run (Rep (S n) r) s [])
      with (flat_map (fun m => run (Rep n r) (snd m) (fst m)) (run r s [])).
    rewrite (IH s c), flat_map_map, map_flat_map.
    apply flat_map_ext; intros [c1 s1]; simpl fst; simpl snd.
    rewrite (IHn s1 (c1 ++ c)), (IHn s1 c1), map_map.
    apply map_ext; intros [c2 s2]; simpl; rewrite app_assoc; reflexivity.
  - simpl. rewrite (IH s c), !map_map.
    apply map_ext; intros [c1 s1]; reflexivity.
Qed.

Lemma run_year (a b c d : ascii) (t : str) (c0 : caps) :
  digit a = true -> digit b = true -> digit c = true -> digit d = true ->
  run (Grp 1 year_regex) (a :: b :: c :: d :: t) c0
  = [((1, [a; b; c; d]) :: c0, t)].
Proof.
  intros Ha Hb Hc Hd. cbn [run year_regex map flat_map fst snd app].
  rewrite Ha; cbn [run map flat_map fst snd app].
  rewrite Hb; cbn [run map flat_map fst snd app].
  rewrite Hc; cbn [run map flat_map fst snd app].
  rewrite Hd; cbn [run map flat_map fst snd app].
  change (a :: b :: c :: d :: t) with ([a; b; c; d] ++ t).
  rewrite consumed_app; reflexivity.
Qed.

(** The constructor accepts the dates of the calendar. *)
Lemma new_spec (y m d : Z) :
  Datetime.new y m d
  = if calendar_date (mk_datetime y m d) then Ok (mk_datetime y m d)
    else Raise ValueError.
Proof.
  unfold Datetime.new, calendar_date, MINYEAR, MAXYEAR; simpl.
  destruct (1 <=? y)%Z; [|reflexivity].
  destruct (y <=? 9999)%Z; [|reflexivity].
  destruct (1 <=? m)%Z eqn:E1; [|reflexivity].
  destruct (m <=? 12)%Z eqn:E2; [|reflexivity].
  assert (Hd : _days_in_month y m = days_in y m).
  { apply Z.leb_le in E1, E2.
    assert (Hm : (m = 1 \/ m = 2 \/ m = 3 \/ m = 4 \/ m = 5 \/ m = 6 \/ m = 7
                  \/ m = 8 \/ m = 9 \/ m = 10 \/ m = 11 \/ m = 12)%Z) by lia.
    unfold _days_in_month, days_in, leap_year, _is_leap.
    repeat (destruct Hm as [->|Hm]; [simpl; try reflexivity|]); subst;
      simpl; try reflexivity. }
  rewrite Hd. simpl.
  destruct (1 <=? d)%Z; [|reflexivity].
  destruct (d <=? days_in y m)%Z; reflexivity.
Qed.

Lemma md_check_all :
  forallb (fun e => forallb (fun f => forallb (fun g => forallb (fun h =>
    md_check e f g h) digits) digits) digits) digits = true.
Proof. vm_compute; reflexivity. Qed.

Lemma md_parse_digits (e f g h : ascii) :
  digit e = true -> digit f = true -> digit g = true -> digit h = true ->
  md_parse [e; f; g; h]
  = if md_valid e f g h then Some [(3, [g; h]); (2, [e; f])] else None.
Proof.
  intros He Hf Hg Hh.
  pose proof md_check_all as H.
  rewrite forallb_forall in H. specialize (H e (digit_In _ He)).
  rewrite forallb_forall in H. specialize (H f (digit_In _ Hf)).
  rewrite forallb_forall in H. specialize (H g (digit_In _ Hg)).
  rewrite forallb_forall in H. specialize (H h (digit_In _ Hh)).
  unfold md_check in H.
  destruct (opt_caps_eq_dec _ _) as [E|_]; [exact E | discriminate].
Qed.

Lemma run_Seq (r1 r2 : regex) (s : str) (c : caps) :
  run (Seq r1 r2) s c = flat_map (fun m => run r2 (snd m) (fst m)) (run r1 s c).
Proof. reflexivity. Qed.

Lemma run_Grp (i : nat) (r : regex) (s : str) (c : caps) :
  run (Grp i r) s c
  = map (fun m => ((i, consumed s (snd m)) :: fst m, snd m)) (run r s c).
Proof. reflexivity. Qed.

Lemma days_in_le (y m : Z) : (days_in y m <= 31)%Z.
Proof.
  unfold days_in.
  destruct ((m =? 4) || (m =? 6) || (m =? 9) || (m =? 11))%Z; [lia|].
  destruct (m =? 2)%Z; [destruct (leap_year y)|]; lia.
Qed.

Lemma md_invalid (y : Z) (e f g h : ascii) :
  md_valid e f g h = false ->
  calendar_date (mk_datetime y (int [e; f]) (int [g; h])) = false.
Proof.
  unfold md_valid, calendar_date; simpl year; simpl month; simpl day.
  generalize (int [e; f]) (int [g; h]); intros m d H.
  pose proof (days_in_le y m) as Hle.
  apply not_true_is_false; intros Hc; apply not_true_iff_false in H; apply H.
  rewrite !andb_true_iff, !Z.leb_le in *. lia.
Qed.

(** On an 8-digit token [strptime] returns the date the token spells when
    that is a date of the calendar, and raises [ValueError] otherwise. *)
Lemma strptime_token (d : str) :
  token d ->
  strptime d = if calendar_date (token_date d) then Ok (token_date d)
               else Raise ValueError.
Proof.
  intros [Hlen Hdig].
  destruct d as [|a [|b [|c [|d' [|e [|f [|g [|h [|]]]]]]]]]; try discriminate Hlen.
  simpl in Hdig. rewrite !andb_true_iff in Hdig.
  destruct Hdig as (Ha & Hb & Hc & Hd & He & Hf & Hg & Hh & _).
  pose proof (md_parse_digits e f g h He Hf Hg Hh) as Hmd.
  unfold md_parse in Hmd.
  unfold strptime, match_at, format_regex.
  rewrite run_Grp, run_Seq, run_year by assumption.
  cbn [flat_map fst snd]. rewrite app_nil_r, run_shift, map_map, hd_error_map.
  unfold token_date; cbn [firstn skipn].
  destruct (hd_error _) as [[cm [|x r]]|]; cbn [option_map fst snd].
  - destruct (md_valid e f g h); [|discriminate Hmd].
    injection Hmd as ->. cbn [group app Nat.eqb]. apply new_spec.
  - destruct (md_valid e f g h) eqn:E; [discriminate Hmd|].
    rewrite (md_invalid _ _ _ _ _ E); reflexivity.
  - destruct (md_valid e f g h) eqn:E; [discriminate Hmd|].
    rewrite (md_invalid _ _ _ _ _ E); reflexivity.
Qed.

End Strptime.

(** ** [parse_issues] *)

Section ParseIssues.
Import ReFacts.

Lemma digit_not_lt (a : ascii) : digit a = true -> not_ch "<" a = true.
Proof.
  destruct a as [[] [] [] [] [] [] [] []]; intros H; try discriminate H;
    reflexivity.
Qed.

Lemma forallb_impl {A : Type} (p q : A -> bool) (l : list A) :
  (forall a, p a = true -> q a = true) ->
  forallb p l = true -> forallb q l = true.
Proof.
  intros Hpq; induction l as [|a l IH]; simpl; [reflexivity|].
  rewrite !andb_true_iff; intros [Ha Hl]; auto.
Qed.

(** An anchor is [<], a text without [<], and [</a>]. *)
Lemma anchor_shape (d1 d2 label : str) :
  token d1 -> token d2 -> label_ok label ->
  exists body,
    anchor (path_of d1 d2) label = "<"%char :: body ++ L "</a>" /\
    forallb (not_ch "<") body = true.
Proof.
  intros [_ H1] [_ H2] [_ Hl].
  exists (L "a href=" ++ [dquote] ++ path_of d1 d2 ++ dquote :: L ">" ++ label).
  split.
  - unfold anchor; simpl. rewrite <- !app_assoc. reflexivity.
  - unfold path_of. rewrite !forallb_app. simpl.
    rewrite (forallb_impl _ _ _ digit_not_lt H1),
            (forallb_impl _ _ _ digit_not_lt H2), Hl.
    reflexivity.
Qed.

(** A text that goes on with [<] and then something other than [/] cannot
    be run into by an anchor that began before it. *)
Lemma anchor_stops_before (x y body rest : str) (b : ascii) (y' : str) :
  forallb (not_ch "<") body = true ->
  y = "<"%char :: b :: y' -> b <> "/"%char ->
  x ++ y = body ++ L "</a>" ++ rest ->
  exists x', x = body ++ L "</a>" ++ x' /\ rest = x' ++ y.
Proof.
  intros Hbody -> Hb; revert x; induction body as [|c body IH]; intros x Heq.
  - simpl in Heq.
    destruct x as [|c1 x]; [injection Heq as E; congruence|].
    destruct x as [|c2 x]; [discriminate Heq|].
    destruct x as [|c3 x]; [discriminate Heq|].
    destruct x as [|c4 x]; [discriminate Heq|].
    injection Heq as -> -> -> -> Heq. exists x; auto.
  - simpl in Hbody; apply andb_true_iff in Hbody as [Hc Hbody].
    destruct x as [|c1 x].
    + injection Heq as <- _; discriminate Hc.
    + injection Heq as -> Heq. apply IH in Heq as (x' & -> & ->); auto.
      exists x'; auto.
Qed.

(** The matches that begin before such a text are the same with it and
    without it. *)
Lemma pattern_local (x y : str) (b : ascii) (y' : str) :
  x <> [] -> y = "<"%char :: b :: y' -> b <> "/"%char ->
  match_at pattern (x ++ y)
  = option_map (fun m => (fst m, snd m ++ y)) (match_at pattern x).
Proof.
  intros Hx Hy Hb.
  destruct (match_at pattern x) as [[c rest]|] eqn:E; simpl.
  - apply match_at_pattern in E as (d1 & d2 & label & H1 & H2 & H3 & -> & ->).
    apply match_at_pattern; exists d1, d2, label.
    rewrite <- app_assoc; auto.
  - destruct (match_at pattern (x ++ y)) as [[c rest]|] eqn:E2; [exfalso|reflexivity].
    apply match_at_pattern in E2 as (d1 & d2 & label & H1 & H2 & H3 & Heq & ->).
    destruct (anchor_shape d1 d2 label H1 H2 H3) as (body & Hshape & Hbody).
    destruct x as [|c0 x]; [contradiction|].
    rewrite Hshape in Heq; simpl in Heq; injection Heq as -> Heq.
    rewrite <- app_assoc in Heq.
    destruct (anchor_stops_before x y body rest b y' Hbody Hy Hb Heq) as (x' & -> & _).
    assert (Hm : match_at pattern ("<"%char :: body ++ L "</a>" ++ x') <> None).
    { change ("<"%char :: body ++ L "</a>" ++ x')
        with (("<"%char :: body) ++ L "</a>" ++ x').
      rewrite app_assoc. change (("<"%char :: body) ++ L "</a>")
        with ("<"%char :: body ++ L "</a>"). rewrite <- Hshape.
      erewrite (proj2 (match_at_pattern _ _ _)); [discriminate|].
      exists d1, d2, label; auto. }
    contradiction.
Qed.

Lemma anchor_barrier (path label post : str) :
  exists y', anchor path label ++ post = "<"%char :: "a"%char :: y'.
Proof. unfold anchor; simpl; eauto. Qed.

(** The scan of a text around an anchor: the matches before it, the
    anchor, the matches after it. *)
Lemma findall2_anchor (pre post d1 d2 label : str) :
  token d1 -> token d2 -> label_ok label ->
  findall2 pattern (pre ++ anchor (path_of d1 d2) label ++ post)
  = findall2 pattern pre ++ (path_of d1 d2, label) :: findall2 pattern post.
Proof.
  intros H1 H2 H3. unfold findall2.
  destruct (anchor_barrier (path_of d1 d2) label post) as (y' & Hy).
  rewrite scan_app; [|intros x1 x2 _ Hne; eapply pattern_local; eauto; discriminate|lia].
  rewrite map_app; f_equal.
  assert (Hm : match_at pattern (anchor (path_of d1 d2) label ++ post)
               = Some ([(0, anchor (path_of d1 d2) label); (2, label);
                        (1, path_of d1 d2)], post)).
  { apply match_at_pattern; exists d1, d2, label; auto. }
  remember (anchor (path_of d1 d2) label) as A eqn:HA.
  destruct A as [|a0 A]; [unfold anchor in HA; discriminate HA|].
  rewrite <- app_comm_cons, scan_cons, app_comm_cons, Hm.
  rewrite <- app_comm_cons.
  replace (length (a0 :: A ++ post) - length post - 1) with (length A)
    by (cbn [length]; rewrite length_app; lia).
  rewrite scan_skip. reflexivity.
Qed.

(** Every match of the scan is an anchor of the text. *)
Lemma findall2_pattern_In (html path label : str) :
  In (path, label) (findall2 pattern html) ->
  exists d1 d2 pre post,
    token d1 /\ token d2 /\ label_ok label /\ path = path_of d1 d2 /\
    html = pre ++ anchor path label ++ post.
Proof.
  unfold findall2; rewrite in_map_iff.
  intros (c & [= <- <-] & Hin).
  apply scan_In in Hin as (s1 & s2 & rest & -> & Hm).
  apply match_at_pattern in Hm as (d1 & d2 & lab & H1 & H2 & H3 & -> & ->).
  exists d1, d2, s1, rest; simpl; auto.
Qed.

Lemma firstn_token (d1 d2 : str) : token d1 -> firstn 8 (path_of d1 d2) = d1.
Proof.
  intros [Hl _]; unfold path_of.
  rewrite firstn_app, Hl, Nat.sub_diag; simpl firstn at 2.
  rewrite app_nil_r, <- Hl; apply firstn_all.
Qed.

Lemma det_date_pattern : det date_pattern.
Proof. apply det_Grp, det_Rep, det_Cls. Qed.

Lemma search_date_pattern (d1 rest : str) :
  token d1 ->
  search date_pattern (d1 ++ rest) = Some ([(0, d1); (1, d1)], rest).
Proof.
  intros [Hl Hd]; apply search_here, match_at_det; [apply det_date_pattern|].
  exists []; split; [|reflexivity].
  apply matches_Rep_Cls; auto.
Qed.

(** One turn of the loop on a match of the pattern. *)
Lemma parse_issues_body_anchor (acc : list issue) (d1 d2 label : str) :
  token d1 ->
  parse_issues_body acc (path_of d1 d2, label)
  = Ok (acc ++ entry (path_of d1 d2, label)).
Proof.
  intros H1. unfold parse_issues_body, entry; cbn [fst snd].
  rewrite (firstn_token d1 d2 H1).
  unfold path_of at 1; rewrite (search_date_pattern d1 _ H1).
  cbn [fst group Nat.eqb]. rewrite (strptime_token d1 H1).
  destruct (calendar_date (token_date d1)); simpl;
    [reflexivity | rewrite app_nil_r; reflexivity].
Qed.

Lemma for_each_append {A B : Type} (body : list B -> A -> result (list B))
  (f : A -> list B) (xs : list A) (acc : list B) :
  (forall acc x, In x xs -> body acc x = Ok (acc ++ f x)) ->
  for_each xs body acc = Ok (acc ++ flat_map f xs).
Proof.
  revert acc; induction xs as [|x xs IH]; intros acc H; simpl.
  - rewrite app_nil_r; reflexivity.
  - rewrite (H acc x (or_introl eq_refl)); simpl.
    rewrite IH, app_assoc; [reflexivity|].
    intros acc' x' Hin; apply H; right; exact Hin.
Qed.

(** [parse_issues] never raises: it returns what the matches of the scan
    contribute, in their order. *)
Lemma parse_issues_entries (html : str) :
  parse_issues html = Ok (flat_map entry (findall2 pattern html)).
Proof.
  unfold parse_issues.
  rewrite (for_each_append parse_issues_body entry); [reflexivity|].
  intros acc [path label] Hin.
  apply findall2_pattern_In in Hin as (d1 & d2 & _ & _ & H1 & _ & _ & -> & _).
  apply parse_issues_body_anchor; exact H1.
Qed.

Lemma entry_anchor (d1 d2 label : str) :
  token d1 ->
  entry (path_of d1 d2, label)
  = if calendar_date (token_date d1)
    then [descriptor (path_of d1 d2) label (token_date d1)] else [].
Proof. intros H1; unfold entry; cbn [fst snd]; rewrite (firstn_token d1 d2 H1); reflexivity. Qed.

(** The result on a text around an anchor. *)
Lemma parse_issues_anchor (pre post d1 d2 label : str) :
  token d1 -> token d2 -> label_ok label ->
  parse_issues (pre ++ anchor (path_of d1 d2) label ++ post)
  = Ok (flat_map entry (findall2 pattern pre)
        ++ entry (path_of d1 d2, label)
        ++ flat_map entry (findall2 pattern post)).
Proof.
  intros H1 H2 H3.
  rewrite parse_issues_entries, findall2_anchor by assumption.
  rewrite flat_map_app; reflexivity.
Qed.

End ParseIssues.

(** ** What [parse_issues] guarantees *)

Section ParseIssuesClaims.
Import ReFacts.

(** Every descriptor comes from an anchor of the text. *)
Lemma parse_issues_In (html : str) (issues : list issue) (i : issue) :
  parse_issues html = Ok issues -> In i issues ->
  exists d1 d2 label pre post,
    token d1 /\ token d2 /\ label_ok label /\
    html = pre ++ anchor (path_of d1 d2) label ++ post /\
    calendar_date (token_date d1) = true /\
    i = descriptor (path_of d1 d2) label (token_date d1).
Proof.
  rewrite parse_issues_entries; intros [= <-] Hin.
  apply in_flat_map in Hin as ([path label] & Hm & Hi).
  apply findall2_pattern_In in Hm as (d1 & d2 & pre & post & H1 & H2 & H3 & -> & ->).
  rewrite (entry_anchor d1 d2 label H1) in Hi.
  destruct (calendar_date (token_date d1)) eqn:E; [|destruct Hi].
  destruct Hi as [<-|[]]. exists d1, d2, label, pre, post; auto 10.
Qed.

Lemma lstrip_spec (s : str) :
  exists l, s = l ++ lstrip s /\ blank l /\
    match lstrip s with a :: _ => isspace a = false | [] => True end.
Proof.
  unfold blank; induction s as [|a s (l & Hs & Hl & Hhd)]; simpl.
  - exists []; auto.
  - destruct (isspace a) eqn:Ha.
    + exists (a :: l); simpl; rewrite Ha, Hl; repeat split; auto. congruence.
    + exists []; auto.
Qed.

Lemma blank_rev (s : str) : blank s -> blank (rev s).
Proof.
  unfold blank; rewrite !forallb_forall; intros H a Ha.
  apply H, in_rev; exact Ha.
Qed.

(** [strip] removes the white space at both ends, and only that. *)
Lemma strip_spec (s : str) :
  exists lead trail,
    s = lead ++ strip s ++ trail /\ blank lead /\ blank trail /\
    trimmed (strip s).
Proof.
  destruct (lstrip_spec s) as (l & Hs & Hl & Hhd).
  destruct (lstrip_spec (rev (lstrip s))) as (r & Hr & Hbr & Hhr).
  assert (Ht : lstrip s = strip s ++ rev r).
  { unfold strip, rstrip. rewrite <- rev_app_distr, <- Hr, rev_involutive.
    reflexivity. }
  exists l, (rev r); repeat split.
  - rewrite <- Ht; exact Hs.
  - exact Hl.
  - apply blank_rev; exact Hbr.
  - rewrite Ht in Hhd. destruct (strip s); simpl in *; auto.
  - unfold strip, rstrip; rewrite rev_involutive; exact Hhr.
Qed.

(** C2 (as the code has it): [parse_issues] emits a descriptor only for an
    anchor of the text whose address is an 8-digit token, the words
    [/weeklypedia_], an 8-digit token and [.html]; the descriptor's
    address is the base address followed by that path.  Nothing ties the
    two tokens to each other. *)
Theorem parse_issues_address_shape (html : str) (issues : list issue)
  (i : issue) :
  parse_issues html = Ok issues -> In i issues ->
  exists d1 d2 label pre post,
    token d1 /\ token d2 /\ label_ok label /\
    html = pre ++ anchor (path_of d1 d2) label ++ post /\
    url i = BASE_URL ++ path_of d1 d2.
Proof.
  intros Hp Hin.
  destruct (parse_issues_In html issues i Hp Hin)
    as (d1 & d2 & label & pre & post & H1 & H2 & H3 & Hh & _ & ->).
  exists d1, d2, label, pre, post; auto 10.
Qed.

(** C3 (as the code has it): the [date_text] of every descriptor is the
    link text of its anchor without the white space at its two ends, the
    same trimmed text the title carries after the brand prefix. *)
Theorem parse_issues_date_text_trimmed (html : str) (issues : list issue)
  (i : issue) :
  parse_issues html = Ok issues -> In i issues ->
  exists d1 d2 label pre post lead trail,
    label_ok label /\
    html = pre ++ anchor (path_of d1 d2) label ++ post /\
    label = lead ++ date_text i ++ trail /\
    blank lead /\ blank trail /\ trimmed (date_text i) /\
    title i = L "Weeklypedia - " ++ date_text i.
Proof.
  intros Hp Hin.
  destruct (parse_issues_In html issues i Hp Hin)
    as (d1 & d2 & label & pre & post & _ & _ & H3 & Hh & _ & ->).
  destruct (strip_spec label) as (lead & trail & Hl & Hb1 & Hb2 & Ht).
  exists d1, d2, label, pre, post, lead, trail; simpl; auto 10.
Qed.

Lemma parse_issues_dates (html : str) :
  exists issues,
    parse_issues html = Ok issues /\
    forall i, In i issues -> calendar_date (date i) = true.
Proof.
  exists (flat_map entry (findall2 pattern html)); split.
  - apply parse_issues_entries.
  - intros i Hin.
    destruct (parse_issues_In html _ i (parse_issues_entries html) Hin)
      as (d1 & d2 & label & pre & post & _ & _ & _ & _ & Hc & ->).
    exact Hc.
Qed.

(** C4: an anchor whose 8-digit token is not a date of the calendar is
    dropped without an exception, and the scan goes on: in any text, the
    result is that of the text before the anchor followed by that of the
    text after it.  No descriptor of either carries a date that is not of
    the calendar. *)
Theorem parse_issues_drops_invalid_date (pre post d1 d2 label : str) :
  token d1 -> token d2 -> label_ok label ->
  calendar_date (token_date d1) = false ->
  exists before after,
    parse_issues pre = Ok before /\
    parse_issues post = Ok after /\
    parse_issues (pre ++ anchor (path_of d1 d2) label ++ post)
    = Ok (before ++ after) /\
    forall i, In i (before ++ after) -> calendar_date (date i) = true.
Proof.
  intros H1 H2 H3 Hbad.
  destruct (parse_issues_dates pre) as (before & Hb & Hdb).
  destruct (parse_issues_dates post) as (after & Ha & Hda).
  exists before, after; repeat split; auto.
  - rewrite parse_issues_anchor, (entry_anchor d1 d2 label H1), Hbad by assumption.
    rewrite parse_issues_entries in Hb, Ha.
    injection Hb as <-; injection Ha as <-; reflexivity.
  - intros i Hin; apply in_app_iff in Hin as [Hin|Hin]; auto.
Qed.

Lemma findall2_no_anchor (s : str) : no_anchor s -> findall2 pattern s = [].
Proof.
  intros H; unfold findall2; rewrite scan_nil; [reflexivity|].
  apply search_None; exact H.
Qed.

Lemma index_entries (es : list index_entry) (tail : str) :
  Forall entry_ok es -> no_anchor tail ->
  flat_map entry (findall2 pattern (index es tail))
  = flat_map index_issues es.
Proof.
  intros Hes Htail; induction Hes as [|[gap [[d1 d2] label]] es He Hes IH].
  - simpl; rewrite (findall2_no_anchor tail Htail); reflexivity.
  - destruct He as (Hg & H1 & H2 & H3). cbn [index].
    rewrite findall2_anchor, (findall2_no_anchor gap Hg) by assumption.
    cbn [app flat_map index_issues].
    rewrite (entry_anchor d1 d2 label H1), IH; reflexivity.
Qed.

(** Every text reads as an index page: anchors, and text without anchors
    around them. *)
Lemma index_complete (html : str) :
  exists es tail, Forall entry_ok es /\ no_anchor tail /\ html = index es tail.
Proof.
  remember (length html) as n eqn:Hn.
  assert (Hle : length html <= n) by lia. clear Hn.
  revert html Hle; induction n as [|n IH]; intros html Hle.
  - destruct html; [|simpl in Hle; lia].
    exists [], []; split; [constructor | split; reflexivity].
  - destruct (search pattern html) as [[c rest]|] eqn:E.
    + apply search_Some in E as (s1 & s2 & -> & Hm & Hleft).
      apply match_at_pattern in Hm as (d1 & d2 & label & H1 & H2 & H3 & -> & _).
      destruct (anchor_barrier (path_of d1 d2) label rest) as (y' & Hy).
      assert (Hrest : length rest <= n).
      { assert (Hlen : 1 <= length (anchor (path_of d1 d2) label))
          by (unfold anchor; simpl; lia).
        rewrite !length_app in Hle. lia. }
      destruct (IH rest Hrest) as (es & tail & Hes & Htail & ->).
      exists ((s1, (d1, d2, label)) :: es), tail.
      split; [|split; [exact Htail | reflexivity]].
      constructor; [|exact Hes].
      split; [|split; [exact H1 | split; [exact H2 | exact H3]]].
      apply search_None; intros t1 t2 ->.
      destruct t2 as [|a t2]; [reflexivity|].
      assert (Hnone : match_at pattern
                        ((a :: t2) ++ anchor (path_of d1 d2) label ++ index es tail)
                      = None).
      { apply (Hleft t1); [rewrite <- app_assoc; reflexivity|].
        rewrite length_app; simpl; lia. }
      rewrite (pattern_local (a :: t2) _ "a" y') in Hnone;
        [|discriminate|exact Hy|discriminate].
      destruct (match_at pattern (a :: t2)); [discriminate Hnone | reflexivity].
    + exists [], html; split; [constructor | split; [exact E | reflexivity]].
Qed.

(** C5: every text reads as anchors with text without anchors around
    them, and however it is read so, the result has one descriptor for
    each anchor whose token is a date of the calendar, in the order of the
    anchors in the text; an anchor that comes twice gives two descriptors.
    A text without anchors, the empty text among them, gives the empty
    list and no error. *)
Theorem parse_issues_in_order (html : str) :
  (exists es tail,
     Forall entry_ok es /\ no_anchor tail /\ html = index es tail) /\
  (forall es tail,
     Forall entry_ok es -> no_anchor tail -> html = index es tail ->
     parse_issues html = Ok (flat_map index_issues es)) /\
  (no_anchor html -> parse_issues html = Ok []).
Proof.
  split; [apply index_complete|]. split.
  - intros es tail Hes Htail ->.
    rewrite parse_issues_entries, (index_entries es tail Hes Htail); reflexivity.
  - intros Hno. rewrite parse_issues_entries, (findall2_no_anchor html Hno).
    reflexivity.
Qed.

(** C10: in any text, the descriptor of an anchor is dated by the first
    token of its path, that of the directory; the token of the file name
    has no part in the date, and is in the address, which is the base
    address followed by the whole path. *)
Theorem parse_issues_date_from_directory (pre post d1 d2 label : str) :
  token d1 -> token d2 -> label_ok label ->
  calendar_date (token_date d1) = true ->
  exists before after,
    parse_issues pre = Ok before /\
    parse_issues post = Ok after /\
    parse_issues (pre ++ anchor (path_of d1 d2) label ++ post)
    = Ok (before
          ++ {| url := BASE_URL ++ d1 ++ L "/weeklypedia_" ++ d2 ++ L ".html";
                title := L "Weeklypedia - " ++ strip label;
                date := token_date d1;
                date_text := strip label;
                content := None |}
          :: after).
Proof.
  intros H1 H2 H3 Hgood.
  exists (flat_map entry (findall2 pattern pre)),
         (flat_map entry (findall2 pattern post)).
  rewrite !parse_issues_entries; repeat split.
  rewrite <- parse_issues_entries, parse_issues_anchor by assumption.
  rewrite (entry_anchor d1 d2 label H1), Hgood; reflexivity.
Qed.

(** The anchor of the sample: address, trimmed title and date. *)
Example parse_issues_sample :
  parse_issues
    (anchor (L "20250102/weeklypedia_20250102.html") (L " Jan 2, 2025 "))
  = Ok [ {| url := BASE_URL ++ L "20250102/weeklypedia_20250102.html";
            title := L "Weeklypedia - Jan 2, 2025";
            date := mk_datetime 2025 1 2;
            date_text := L "Jan 2, 2025";
            content := None |} ].
Proof. vm_compute; reflexivity. Qed.

Lemma parse_issues_address_shape_witness :
  exists d1 d2 label pre post,
    token d1 /\ token d2 /\ label_ok label /\
    mixed_anchor = pre ++ anchor (path_of d1 d2) label ++ post /\
    url mixed_issue = BASE_URL ++ path_of d1 d2.
Proof.
  apply (parse_issues_address_shape mixed_anchor [mixed_issue] mixed_issue).
  - vm_compute; reflexivity.
  - left; reflexivity.
Defined.

(** C2, as stated, fails: an anchor whose directory token is 20250102 and
    whose file token is 20250109 is matched and gives a descriptor. *)
Lemma parse_issues_tokens_may_differ :
  jan2 <> jan9 /\ parse_issues mixed_anchor = Ok [mixed_issue].
Proof. split; [discriminate | vm_compute; reflexivity]. Qed.

Lemma parse_issues_date_text_trimmed_witness :
  exists d1 d2 label pre post lead trail,
    label_ok label /\
    mixed_anchor = pre ++ anchor (path_of d1 d2) label ++ post /\
    label = lead ++ date_text mixed_issue ++ trail /\
    blank lead /\ blank trail /\ trimmed (date_text mixed_issue) /\
    title mixed_issue = L "Weeklypedia - " ++ date_text mixed_issue.
Proof.
  apply (parse_issues_date_text_trimmed mixed_anchor [mixed_issue] mixed_issue).
  - vm_compute; reflexivity.
  - left; reflexivity.
Defined.

(** C3, as stated, fails: the link text [ Jan 2, 2025 ], with a blank at
    each end, gives the [date_text] [Jan 2, 2025], without them. *)
Lemma parse_issues_date_text_not_raw :
  exists i,
    parse_issues (anchor (path_of jan2 jan9) (L " Jan 2, 2025 ")) = Ok [i] /\
    date_text i = L "Jan 2, 2025" /\
    date_text i <> L " Jan 2, 2025 ".
Proof.
  exists mixed_issue; split; [vm_compute; reflexivity|].
  split; [reflexivity | discriminate].
Qed.

Lemma parse_issues_drops_invalid_date_witness :
  exists before after,
    parse_issues mixed_anchor = Ok before /\
    parse_issues (anchor (path_of jan9 jan9) (L "Jan 9, 2025")) = Ok after /\
    parse_issues
      (mixed_anchor ++ anchor (path_of nines jan9) (L "never")
       ++ anchor (path_of jan9 jan9) (L "Jan 9, 2025"))
    = Ok (before ++ after) /\
    forall i, In i (before ++ after) -> calendar_date (date i) = true.
Proof.
  apply (parse_issues_drops_invalid_date mixed_anchor
           (anchor (path_of jan9 jan9) (L "Jan 9, 2025")) nines jan9 (L "never")).
  - split; reflexivity.
  - split; reflexivity.
  - split; [discriminate | reflexivity].
  - reflexivity.
Defined.

Lemma parse_issues_in_order_witness :
  parse_issues (index sample_index (L "</li></ul>"))
  = Ok [jan9_issue; mixed_issue; jan9_issue]
  /\ parse_issues [] = Ok [].
Proof.
  split.
  - apply (proj1 (proj2 (parse_issues_in_order
                           (index sample_index (L "</li></ul>"))))
             sample_index (L "</li></ul>")).
    + repeat constructor; try discriminate; vm_compute; reflexivity.
    + vm_compute; reflexivity.
    + reflexivity.
  - apply (proj2 (proj2 (parse_issues_in_order []))). reflexivity.
Defined.

Lemma parse_issues_date_from_directory_witness :
  exists before after,
    parse_issues (L "<li>") = Ok before /\
    parse_issues (L "</li>") = Ok after /\
    parse_issues (L "<li>" ++ mixed_anchor ++ L "</li>")
    = Ok (before
          ++ {| url := BASE_URL ++ jan2 ++ L "/weeklypedia_" ++ jan9 ++ L ".html";
                title := L "Weeklypedia - " ++ strip (L " Jan 2, 2025 ");
                date := token_date jan2;
                date_text := strip (L " Jan 2, 2025 ");
                content := None |}
          :: after).
Proof.
  apply (parse_issues_date_from_directory (L "<li>") (L "</li>") jan2 jan9
           (L " Jan 2, 2025 ")).
  - split; reflexivity.
  - split; reflexivity.
  - split; [discriminate | reflexivity].
  - reflexivity.
Defined.

End ParseIssuesClaims.

(** ** [extract_content] *)

Section ExtractContent.
Import ReFacts.

Ltac app_norm := repeat (progress (simpl; rewrite <- ?app_assoc)).

Lemma matches_ol (w : str) (c c' : caps) :
  matches ol_pattern w c c' <-> is_ol w /\ c' = c.
Proof.
  unfold ol_pattern, is_ol; split.
  - intros (w1 & w2 & c1 & -> & [-> ->] & H).
    destruct H as (attrs & w3 & c2 & -> & [Ha ->] & H).
    destruct H as (w4 & w5 & c3 & -> & [-> ->] & H).
    destruct H as (inner & w6 & c4 & -> & [_ ->] & [-> ->]).
    split; [|reflexivity]. exists attrs, inner; auto.
  - intros [(attrs & inner & -> & Ha) ->].
    exists (L "<ol"), (attrs ++ L ">" ++ inner ++ L "</ol>"), c.
    split; [reflexivity|]. split; [split; reflexivity|].
    exists attrs, (L ">" ++ inner ++ L "</ol>"), c.
    split; [reflexivity|]. split; [split; auto|].
    exists (L ">"), (inner ++ L "</ol>"), c.
    split; [reflexivity|]. split; [split; reflexivity|].
    exists inner, (L "</ol>"), c.
    split; [reflexivity|]. split; [|split; reflexivity].
    split; [|reflexivity]. apply forallb_forall; reflexivity.
Qed.

Lemma matches_body (w : str) (c' : caps) :
  matches body_pattern w [] c' <->
  exists attrs inner,
    w = L "<body" ++ attrs ++ L ">" ++ inner ++ L "</body>" /\
    forallb (not_ch ">") attrs = true /\ c' = [(1, inner)].
Proof.
  unfold body_pattern; split.
  - intros (w1 & w2 & c1 & -> & [-> ->] & H).
    destruct H as (attrs & w3 & c2 & -> & [Ha ->] & H).
    destruct H as (w4 & w5 & c3 & -> & [-> ->] & H).
    destruct H as (inner & w6 & c4 & -> & (c5 & [_ ->] & ->) & [-> ->]).
    exists attrs, inner; auto.
  - intros (attrs & inner & -> & Ha & ->).
    exists (L "<body"), (attrs ++ L ">" ++ inner ++ L "</body>"), [].
    split; [reflexivity|]. split; [split; reflexivity|].
    exists attrs, (L ">" ++ inner ++ L "</body>"), [].
    split; [reflexivity|]. split; [split; auto|].
    exists (L ">"), (inner ++ L "</body>"), [].
    split; [reflexivity|]. split; [split; reflexivity|].
    exists inner, (L "</body>"), [(1, inner)].
    split; [reflexivity|]. split; [|split; reflexivity].
    exists []; split; [|reflexivity].
    split; [|reflexivity]. apply forallb_forall; reflexivity.
Qed.

Lemma matches_section (w : str) (c' : caps) :
  matches section_pattern w [] c' <->
  exists attrs title gap olw,
    w = L "<h2" ++ attrs ++ L ">" ++ title ++ L "</h2>" ++ gap ++ olw /\
    forallb (not_ch ">") attrs = true /\ label_ok title /\ is_ol olw /\
    c' = [(2, gap ++ olw); (1, title)].
Proof.
  unfold section_pattern; split.
  - intros (w1 & w2 & c1 & -> & [-> ->] & H).
    destruct H as (attrs & w3 & c2 & -> & [Ha ->] & H).
    destruct H as (w4 & w5 & c3 & -> & [-> ->] & H).
    destruct H as (title & w6 & c4 & -> & (c5 & Ht & ->) & H).
    destruct Ht as (t1 & t2 & c6 & -> & ((a & -> & Ht1) & ->) & [Ht2 ->]).
    destruct H as (w7 & w8 & c7 & -> & [-> ->] & (c8 & H & ->)).
    destruct H as (gap & olw & c9 & -> & [_ ->] & H).
    apply matches_ol in H as [Hol ->].
    exists attrs, (a :: t2), gap, olw; repeat split; auto.
    + discriminate.
    + simpl; rewrite Ht1; exact Ht2.
  - intros (attrs & title & gap & olw & -> & Ha & [Hne Ht] & Hol & ->).
    destruct title as [|a title]; [contradiction|].
    simpl in Ht; apply andb_true_iff in Ht as [Ht1 Ht2].
    exists (L "<h2"), (attrs ++ L ">" ++ (a :: title) ++ L "</h2>" ++ gap ++ olw), [].
    split; [reflexivity|]. split; [split; reflexivity|].
    exists attrs, (L ">" ++ (a :: title) ++ L "</h2>" ++ gap ++ olw), [].
    split; [reflexivity|]. split; [split; auto|].
    exists (L ">"), ((a :: title) ++ L "</h2>" ++ gap ++ olw), [].
    split; [reflexivity|]. split; [split; reflexivity|].
    exists (a :: title), (L "</h2>" ++ gap ++ olw), [(1, a :: title)].
    split; [reflexivity|]. split.
    { exists []; split; [|reflexivity].
      exists [a], title, []. split; [reflexivity|].
      split; [split; [eauto | reflexivity] | split; auto]. }
    exists (L "</h2>"), (gap ++ olw), [(1, a :: title)].
    split; [reflexivity|]. split; [split; reflexivity|].
    exists [(1, a :: title)]; split; [|reflexivity].
    exists gap, olw, [(1, a :: title)].
    split; [reflexivity|]. split.
    { split; [|reflexivity]. apply forallb_forall; reflexivity. }
    apply matches_ol; auto.
Qed.

Lemma match_at_section_nonempty (s : str) (c : caps) (rest : str) :
  match_at section_pattern s = Some (c, rest) -> length rest < length s.
Proof.
  intros H; apply match_at_sound in H as (w & c' & -> & M & _).
  apply matches_section in M as (attrs & title & gap & olw & -> & _).
  rewrite length_app; simpl; lia.
Qed.

(** No body region can be isolated exactly when the text has no opening
    [<body ...>] tag with a closing [</body>] tag after it. *)
Lemma search_body_None (html : str) :
  search body_pattern html = None <-> ~ has_body html.
Proof.
  rewrite search_None; split.
  - intros H (pre & attrs & inner & post & -> & Ha).
    specialize (H pre _ eq_refl). rewrite match_at_None in H.
    apply (H (L "<body" ++ attrs ++ L ">" ++ inner ++ L "</body>") post [(1, inner)]).
    + app_norm; reflexivity.
    + apply matches_body; exists attrs, inner; auto.
  - intros H s1 s2 ->. apply match_at_None; intros w rest c' -> M.
    apply matches_body in M as (attrs & inner & -> & Ha & _).
    apply H; exists s1, attrs, inner, rest; split; [|exact Ha].
    app_norm; reflexivity.
Qed.

(** The body region is the inside of a body element of the text. *)
Lemma body_of_Some (html body : str) :
  body_of html = Some body ->
  exists pre attrs post,
    html = pre ++ L "<body" ++ attrs ++ L ">" ++ body ++ L "</body>" ++ post /\
    forallb (not_ch ">") attrs = true.
Proof.
  unfold body_of. destruct (search body_pattern html) as [[c rest]|] eqn:E;
    [|discriminate].
  intros [= <-].
  apply search_Some in E as (s1 & s2 & -> & Hm & _).
  apply match_at_sound in Hm as (w & c' & -> & M & ->).
  apply matches_body in M as (attrs & inner & -> & Ha & ->).
  exists s1, attrs, rest; split; [|exact Ha].
  app_norm; reflexivity.
Qed.

(** Every occurrence the scan of the body finds is a level-2 heading with
    a text, and a captured stretch that ends with an ordered list. *)
Lemma findall2_section_In (body title content : str) :
  In (title, content) (findall2 section_pattern body) ->
  label_ok title /\
  exists gap olw, content = gap ++ olw /\ is_ol olw.
Proof.
  unfold findall2; rewrite in_map_iff.
  intros (c & [= <- <-] & Hin).
  apply scan_In in Hin as (s1 & s2 & rest & -> & Hm).
  apply match_at_sound in Hm as (w & c' & -> & M & ->).
  apply matches_section in M as (attrs & title & gap & olw & -> & Ha & Ht & Hol & ->).
  simpl; split; [exact Ht|]. exists gap, olw; auto.
Qed.

(** In such a stretch the search for the list succeeds, and what it finds
    is an ordered-list element inside the stretch. *)
Lemma search_ol_Some (gap olw : str) :
  is_ol olw ->
  exists m, search ol_pattern (gap ++ olw) = Some m.
Proof.
  intros Hol. destruct (search ol_pattern (gap ++ olw)) as [m|] eqn:E; [eauto|].
  exfalso. rewrite search_None in E. specialize (E gap olw eq_refl).
  rewrite match_at_None in E. apply (E olw [] []).
  - rewrite app_nil_r; reflexivity.
  - apply matches_ol; auto.
Qed.

Lemma str_in_spec (x : str) (xs : list str) : str_in x xs = true <-> In x xs.
Proof.
  unfold str_in; rewrite existsb_exists; split.
  - intros (y & Hy & E). destruct (list_eq_dec ascii_dec x y); [subst; auto|discriminate].
  - intros H; exists x; split; [exact H|].
    destruct (list_eq_dec ascii_dec x x); [reflexivity | contradiction].
Qed.

Lemma kept_spec (m : str * str) : kept m = true <-> recognized (strip (fst m)).
Proof.
  unfold kept, recognized, section_names; rewrite str_in_spec; simpl.
  intuition congruence.
Qed.

(** The loop over the occurrences keeps those with a recognised name, in
    their order, each wrapped. *)
Lemma extract_content_loop (ms : list (str * str)) (acc : list str) :
  (forall m, In m ms -> exists r, search ol_pattern (snd m) = Some r) ->
  fold_left extract_content_body ms acc = acc ++ map wrapped (filter kept ms).
Proof.
  revert acc; induction ms as [|[t c] ms IH]; intros acc H.
  - simpl; rewrite app_nil_r; reflexivity.
  - cbn [fold_left filter].
    rewrite IH by (intros m Hm; apply H; right; exact Hm).
    destruct (H (t, c) (or_introl eq_refl)) as (r & Hr); cbn [snd] in Hr.
    unfold extract_content_body.
    replace (kept (t, c)) with (str_in (strip t) section_names) by reflexivity.
    destruct (str_in (strip t) section_names); [|reflexivity].
    rewrite Hr. cbn [map]. unfold wrapped at 2, ol_of; cbn [fst snd].
    rewrite Hr, <- app_assoc; reflexivity.
Qed.

(** [extract_content], as the sections kept from the body region. *)
Lemma extract_content_sections (html : str) :
  extract_content html =
  match body_of html with
  | None => None
  | Some body =>
      match map wrapped (filter kept (findall2 section_pattern body)) with
      | [] => None
      | ss => Some (join [newline] ss)
      end
  end.
Proof.
  unfold extract_content, body_of.
  destruct (search body_pattern html) as [m|]; [|reflexivity]; cbn [option_map].
  rewrite extract_content_loop.
  - simpl. destruct (map wrapped _); reflexivity.
  - intros [t c] Hin. apply findall2_section_In in Hin as (_ & gap & olw & -> & Hol).
    apply search_ol_Some; exact Hol.
Qed.

(** *** The order of the matcher: what the first match is *)

Lemma run_Lit_app (l : str) (X : regex) (s : str) (c : caps) :
  run (Seq (Lit l) X) (l ++ s) c = run X s c.
Proof.
  rewrite run_Seq. cbn [run]. rewrite strip_prefix_app.
  cbn [flat_map fst snd]. apply app_nil_r.
Qed.

Lemma greedy_then {X : Type} (f : str -> list X) (p : ascii -> bool)
  (a : ascii) (attrs t : str) :
  forallb p attrs = true -> p a = false ->
  (forall b s', p b = true -> f (b :: s') = []) ->
  flat_map f (greedy p (attrs ++ a :: t)) = f (a :: t).
Proof.
  intros Hall Ha Hf; induction attrs as [|x attrs IH]; simpl in *.
  - rewrite Ha; simpl; apply app_nil_r.
  - apply andb_true_iff in Hall as [Hx Hall]. rewrite Hx, flat_map_app.
    simpl. rewrite (Hf x _ Hx), !app_nil_r. apply IH; exact Hall.
Qed.

Lemma run_Lit_then_ne (p : ascii -> bool) (a b : ascii) (l : str) (X : regex)
  (s : str) (c : caps) :
  p a = false -> p b = true -> run (Seq (Lit (a :: l)) X) (b :: s) c = [].
Proof.
  intros Ha Hb. rewrite run_Seq, run_Lit_cons_ne; [reflexivity | congruence].
Qed.

(** [p*] followed by a literal that begins outside [p]: the repetition
    runs as far as it can. *)
Lemma run_StarG_then (p : ascii -> bool) (a : ascii) (l : str) (X : regex)
  (attrs t : str) (c : caps) :
  forallb p attrs = true -> p a = false ->
  run (Seq (StarG p) (Seq (Lit (a :: l)) X)) (attrs ++ a :: t) c
  = run (Seq (Lit (a :: l)) X) (a :: t) c.
Proof.
  intros Hall Ha. rewrite run_Seq. cbn [run]. rewrite flat_map_map.
  cbn [fst snd]. apply greedy_then; auto.
  intros b s' Hb; apply (run_Lit_then_ne p); auto.
Qed.

(** The same for a captured [p+]. *)
Lemma run_Plus_then (i : nat) (p : ascii -> bool) (a : ascii) (l : str)
  (X : regex) (title t : str) (c : caps) :
  title <> [] -> forallb p title = true -> p a = false ->
  run (Seq (Grp i (PlusG p)) (Seq (Lit (a :: l)) X)) (title ++ a :: t) c
  = run (Seq (Lit (a :: l)) X) (a :: t) ((i, title) :: c).
Proof.
  intros Hne Hall Ha. destruct title as [|x title]; [contradiction|].
  simpl in Hall; apply andb_true_iff in Hall as [Hx Hall].
  rewrite run_Seq, run_Grp. unfold PlusG. rewrite run_Seq.
  rewrite <- app_comm_cons. cbn [run]. rewrite Hx.
  cbn [flat_map fst snd]. rewrite app_nil_r, !flat_map_map. cbn [fst snd].
  change (flat_map
            (fun x0 => run (Seq (Lit (a :: l)) X) x0
                         ((i, consumed (x :: title ++ a :: t) x0) :: c))
            (greedy p (title ++ a :: t))
          = run (Seq (Lit (a :: l)) X) (a :: t) ((i, x :: title) :: c)).
  rewrite (greedy_then
             (fun x0 => run (Seq (Lit (a :: l)) X) x0
                          ((i, consumed (x :: title ++ a :: t) x0) :: c))
             p a title t Hall Ha).
  - change (x :: title ++ a :: t) with ((x :: title) ++ a :: t).
    rewrite consumed_app; reflexivity.
  - intros b s' Hb; apply (run_Lit_then_ne p); auto.
Qed.

(** The first match after a lazy [.*?]: it stops at the first place from
    which what follows can match. *)
Lemma lazy_first {X : Type} (f : str -> list X) (s : str) (y : X) :
  hd_error (flat_map f (lazy any s)) = Some y ->
  exists w r,
    s = w ++ r /\
    (forall w1 w2, w = w1 ++ w2 -> w2 <> [] -> f (w2 ++ r) = []) /\
    hd_error (f r) = Some y.
Proof.
  induction s as [|a s IH]; simpl.
  - rewrite app_nil_r; intros H; exists [], []; repeat split; auto.
    intros w1 w2 Hw Hne. symmetry in Hw; apply app_eq_nil in Hw as [_ ->].
    contradiction.
  - destruct (f (a :: s)) as [|y' l] eqn:E; simpl.
    + intros H; apply IH in H as (w & r & -> & Hfail & Hhd).
      exists (a :: w), r; repeat split; auto.
      intros [|b w1] w2 Hw Hne; simpl in Hw.
      * subst w2; exact E.
      * injection Hw as _ Hw; eapply Hfail; eauto.
    + intros [= ->]; exists [], (a :: s); rewrite E; repeat split; auto.
      intros w1 w2 Hw Hne. symmetry in Hw; apply app_eq_nil in Hw as [_ ->].
      contradiction.
Qed.

Lemma lazy_skip {X : Type} (f : str -> list X) (w r : str) :
  (forall w1 w2, w = w1 ++ w2 -> w2 <> [] -> f (w2 ++ r) = []) ->
  flat_map f (lazy any (w ++ r)) = flat_map f (lazy any r).
Proof.
  induction w as [|a w IH]; intros H; [reflexivity|].
  pose proof (H [] (a :: w) eq_refl ltac:(discriminate)) as E.
  simpl in *. rewrite E. simpl.
  apply IH; intros w1 w2 -> Hne; apply (H (a :: w1) w2); auto.
Qed.

Lemma lazy_here {X : Type} (f : str -> list X) (r : str) :
  exists l, flat_map f (lazy any r) = f r ++ l.
Proof. destruct r; simpl; eauto. Qed.

Lemma search_skip (r : regex) (gap x : str) :
  (forall g1 g2, gap = g1 ++ g2 -> g2 <> [] -> match_at r (g2 ++ x) = None) ->
  search r (gap ++ x) = search r x.
Proof.
  induction gap as [|a gap IH]; intros H; [reflexivity|].
  pose proof (H [] (a :: gap) eq_refl ltac:(discriminate)) as E.
  simpl in *. rewrite E.
  apply IH; intros g1 g2 -> Hne; apply (H (a :: g1) g2); auto.
Qed.

Lemma run_StarL (p : ascii -> bool) (s : str) (c : caps) :
  run (StarL p) s c = map (pair c) (lazy p s).
Proof. reflexivity. Qed.

Lemma consumed_nil (w : str) : consumed w [] = w.
Proof. rewrite <- (app_nil_r w) at 1; apply consumed_app. Qed.

(** The first match of the list pattern, taken alone, is the whole of
    what it matched in a longer text. *)
Lemma ol_first (r rest : str) (c c' : caps) :
  hd_error (run ol_pattern r c) = Some (c', rest) ->
  exists olw,
    r = olw ++ rest /\ is_ol olw /\
    match_at ol_pattern olw = Some ([(0, olw)], []).
Proof.
  intros H. pose proof (hd_error_In _ _ H) as Hin.
  apply run_spec in Hin as (olw & -> & M).
  apply matches_ol in M as [Hol ->]. exists olw; repeat split; auto.
  destruct Hol as (attrs & inner & -> & Ha).
  replace ((L "<ol" ++ attrs ++ L ">" ++ inner ++ L "</ol>") ++ rest)
    with (L "<ol" ++ attrs ++ ">"%char :: inner ++ L "</ol>" ++ rest) in H
    by (app_norm; reflexivity).
  unfold ol_pattern in H.
  rewrite run_Lit_app in H.
  rewrite (run_StarG_then (not_ch ">") ">" [] _ attrs _ c Ha eq_refl) in H.
  rewrite (run_Lit_app (L ">") _ (inner ++ L "</ol>" ++ rest)) in H.
  rewrite run_Seq in H. cbn [run] in H. rewrite flat_map_map in H.
  apply lazy_first in H as (w & r0 & Heq & Hfail & Hhd).
  cbn [fst snd] in Hhd, Hfail.
  assert (Hr0 : r0 = L "</ol>" ++ rest).
  { destruct (strip_prefix (L "</ol>") r0) as [s'|] eqn:E; [|discriminate Hhd].
    cbn in Hhd. injection Hhd as ->. apply strip_prefix_spec; exact E. }
  subst r0.
  assert (Hw : w = inner).
  { apply (app_inv_tail (L "</ol>" ++ rest)). symmetry; exact Heq. }
  subst w.
  assert (Hfail' : forall w1 w2, inner = w1 ++ w2 -> w2 <> [] ->
            run (Lit (L "</ol>")) (w2 ++ L "</ol>") [] = []).
  { intros w1 w2 Hw Hne. specialize (Hfail w1 w2 Hw Hne).
    cbn [run] in *.
    destruct (strip_prefix (L "</ol>") (w2 ++ L "</ol>")) as [s'|] eqn:E;
      [|reflexivity].
    apply strip_prefix_spec in E.
    rewrite app_assoc, E, <- app_assoc, strip_prefix_app in Hfail.
    discriminate Hfail. }
  unfold match_at. rewrite run_Grp, hd_error_map. unfold ol_pattern.
  replace (L "<ol" ++ attrs ++ L ">" ++ inner ++ L "</ol>")
    with (L "<ol" ++ attrs ++ ">"%char :: inner ++ L "</ol>")
    by (app_norm; reflexivity).
  rewrite run_Lit_app.
  rewrite (run_StarG_then (not_ch ">") ">" [] _ attrs _ [] Ha eq_refl).
  rewrite (run_Lit_app (L ">") _ (inner ++ L "</ol>")).
  rewrite run_Seq, run_StarL, flat_map_map. cbn [fst snd].
  rewrite (lazy_skip (fun x => run (Lit (L "</ol>")) x []) inner (L "</ol>")
             Hfail').
  destruct (lazy_here (fun x => run (Lit (L "</ol>")) x []) (L "</ol>"))
    as (l & ->).
  change (run (Lit (L "</ol>")) (L "</ol>") []) with [(@nil (nat * str), @nil ascii)].
  cbn [app hd_error option_map fst snd]. rewrite consumed_nil. reflexivity.
Qed.

(** The first match of the section pattern: the stretch it captures is a
    gap in which no list element begins, and then one list element, whole. *)
Lemma section_first (s2 rest : str) (cm : caps) :
  match_at section_pattern s2 = Some (cm, rest) ->
  exists gap olw,
    group 2 cm = gap ++ olw /\ is_ol olw /\
    (forall g1 g2, gap = g1 ++ g2 -> g2 <> [] ->
       match_at ol_pattern (g2 ++ olw) = None) /\
    match_at ol_pattern olw = Some ([(0, olw)], []).
Proof.
  intros H. pose proof (match_at_sound _ _ _ _ H) as (w & c' & -> & M & _).
  apply matches_section in M
    as (attrs & title & gap0 & olw0 & -> & Ha & [Hne Ht] & _ & _).
  remember ((gap0 ++ olw0) ++ rest) as s1 eqn:Hs1.
  replace ((L "<h2" ++ attrs ++ L ">" ++ title ++ L "</h2>" ++ gap0 ++ olw0) ++ rest)
    with (L "<h2" ++ attrs ++ ">"%char :: title ++ "<"%char :: L "/h2>" ++ s1) in H
    by (subst s1; app_norm; reflexivity).
  unfold match_at, section_pattern in H.
  rewrite run_Grp, hd_error_map, run_Lit_app in H.
  rewrite (run_StarG_then (not_ch ">") ">" [] _ attrs _ [] Ha eq_refl) in H.
  rewrite (run_Lit_app (L ">") _ (title ++ "<"%char :: L "/h2>" ++ s1)) in H.
  rewrite (run_Plus_then 1 (not_ch "<") "<" (L "/h2>") _ title _ []
             Hne Ht eq_refl) in H.
  rewrite (run_Lit_app (L "</h2>") _ s1) in H.
  rewrite run_Grp, hd_error_map, run_Seq in H. cbn [run] in H.
  rewrite flat_map_map in H. cbn [fst snd] in H.
  destruct (hd_error (flat_map _ (lazy any s1))) as [[c2 r2]|] eqn:E;
    [|discriminate H].
  cbn [option_map fst snd] in H. injection H as <- ->.
  apply lazy_first in E as (gap & r & Hsplit & Hfail & Hhd).
  apply ol_first in Hhd as (olw & -> & Hol & Hm).
  exists gap, olw; repeat split; auto.
  - cbn [group Nat.eqb]. rewrite Hsplit, app_assoc. apply consumed_app.
  - intros g1 g2 Hg Hne2. specialize (Hfail g1 g2 Hg Hne2).
    cbv beta in Hfail.
    apply match_at_None; intros w' rest' c0 Heq M.
    apply matches_ol in M as [Hol' _].
    assert (Hin : In ([(1, title)], rest' ++ rest)
                    (run ol_pattern (g2 ++ olw ++ rest) [(1, title)])).
    { apply run_spec; exists w'; split.
      - rewrite !app_assoc, Heq; reflexivity.
      - apply matches_ol; auto. }
    exact (eq_ind _ (fun l => In ([(1, title)], rest' ++ rest) l) Hin _ Hfail).
Qed.

(** What [extract_content] keeps of a captured stretch is its list
    element: the stretch is a gap followed by that element, and the gap is
    dropped. *)
Lemma section_ol_of (body title content : str) :
  In (title, content) (findall2 section_pattern body) ->
  exists gap, content = gap ++ ol_of content /\ is_ol (ol_of content).
Proof.
  unfold findall2; rewrite in_map_iff.
  intros (c & [= <- <-] & Hin).
  apply scan_In in Hin as (s1 & s2 & rest & -> & Hm).
  apply section_first in Hm as (gap & olw & -> & Hol & Hnone & Hhere).
  assert (E : ol_of (gap ++ olw) = olw).
  { unfold ol_of. rewrite (search_skip ol_pattern gap olw Hnone).
    rewrite (search_here _ _ _ Hhere). reflexivity. }
  exists gap; rewrite E; auto.
Qed.

Lemma join_nonempty (sep x : str) (l : list str) :
  x <> [] -> join sep (x :: l) <> [].
Proof.
  destruct x as [|a x]; [contradiction|]. intros _.
  destruct l; simpl; discriminate.
Qed.

(** C6: [extract_content] is a total function of the text.  It returns
    [None] exactly when the text has no opening [<body ...>] tag with a
    closing [</body>] tag after it, or when none of the occurrences of a
    heading with an ordered list that the scan of the body region finds
    has a recognised section name; any fragment it returns is not empty. *)
Theorem extract_content_none_iff (html : str) :
  (extract_content html = None <->
   ~ has_body html \/
   exists body,
     body_of html = Some body /\
     forall title content,
       In (title, content) (findall2 section_pattern body) ->
       ~ recognized (strip title))
  /\ (forall frag, extract_content html = Some frag -> frag <> []).
Proof.
  rewrite extract_content_sections.
  pose proof (search_body_None html) as Hb. unfold body_of in *.
  destruct (search body_pattern html) as [m|]; cbn [option_map].
  - set (body := group 1 (fst m)).
    assert (Hkept : map wrapped (filter kept (findall2 section_pattern body)) = []
                    <-> forall title content,
                          In (title, content) (findall2 section_pattern body) ->
                          ~ recognized (strip title)).
    { split.
      - intros E title content Hin Hrec.
        apply map_eq_nil in E.
        assert (Hf : In (title, content)
                       (filter kept (findall2 section_pattern body))).
        { apply filter_In; split; [exact Hin|]. apply kept_spec; exact Hrec. }
        rewrite E in Hf; destruct Hf.
      - intros H. destruct (filter kept _) as [|[t c] l] eqn:E; [reflexivity|].
        assert (Hf : In (t, c) (filter kept (findall2 section_pattern body)))
          by (rewrite E; left; reflexivity).
        apply filter_In in Hf as [Hin Hk]. apply kept_spec in Hk.
        destruct (H t c Hin Hk). }
    split.
    + split.
      * intros E; right; exists body; split; [reflexivity|].
        apply Hkept. destruct (map wrapped _); [reflexivity | discriminate].
      * intros [Hno|(body' & [= <-] & H)].
        -- discriminate (proj2 Hb Hno).
        -- apply Hkept in H. fold body. rewrite H. reflexivity.
    + intros frag. destruct (filter kept _) as [|x l]; [discriminate|].
      cbn [map]. intros E.
      assert (E' : join [newline] (wrapped x :: map wrapped l) = frag)
        by (injection E; intros E0; exact E0).
      rewrite <- E'. apply join_nonempty. discriminate.
  - split; [|discriminate]. split; [|reflexivity].
    intros _; left; apply Hb; reflexivity.
Qed.

(** C7: a fragment [extract_content] returns is the wrapped sections of
    the occurrences it keeps, in the order the scan of the body region
    finds them, joined by one line break.  An occurrence is kept exactly
    when its heading text, trimmed, is [Articles], [New Articles] or
    [Discussions].  A wrapped section is the level-3 heading with that
    name, a line break, and the ordered-list element alone: the captured
    stretch is some markup followed by that element, and the markup is
    dropped. *)
Theorem extract_content_fragment (html frag : str) :
  extract_content html = Some frag ->
  exists body,
    body_of html = Some body /\
    (exists pre attrs post,
       html = pre ++ L "<body" ++ attrs ++ L ">" ++ body ++ L "</body>" ++ post) /\
    frag = join [newline]
             (map wrapped (filter kept (findall2 section_pattern body))) /\
    (forall m, kept m = true <-> recognized (strip (fst m))) /\
    (forall title content,
       In (title, content) (findall2 section_pattern body) ->
       wrapped (title, content)
       = L "<h3>" ++ strip title ++ L "</h3>" ++ [newline] ++ ol_of content /\
       is_ol (ol_of content) /\
       exists gap, content = gap ++ ol_of content).
Proof.
  rewrite extract_content_sections.
  destruct (body_of html) as [body|] eqn:Hbody; [|discriminate].
  intros E. exists body. split; [reflexivity|]. split.
  { destruct (body_of_Some html body Hbody) as (pre & attrs & post & Hh & _).
    exists pre, attrs, post; exact Hh. }
  split.
  - destruct (map wrapped _) as [|x l]; [discriminate|].
    injection E; intros E0; symmetry; exact E0.
  - split; [exact kept_spec|].
    intros title content Hin. split; [reflexivity|].
    destruct (section_ol_of body title content Hin) as (gap & Hc & Hol).
    split; [exact Hol | exists gap; exact Hc].
Qed.

Lemma extract_content_fragment_witness :
  exists body,
    body_of sample_page = Some body /\
    (exists pre attrs post,
       sample_page
       = pre ++ L "<body" ++ attrs ++ L ">" ++ body ++ L "</body>" ++ post) /\
    sample_fragment
    = join [newline]
        (map wrapped (filter kept (findall2 section_pattern body))) /\
    (forall m, kept m = true <-> recognized (strip (fst m))) /\
    (forall title content,
       In (title, content) (findall2 section_pattern body) ->
       wrapped (title, content)
       = L "<h3>" ++ strip title ++ L "</h3>" ++ [newline] ++ ol_of content /\
       is_ol (ol_of content) /\
       exists gap, content = gap ++ ol_of content).
Proof.
  apply (extract_content_fragment sample_page sample_fragment).
  vm_compute; reflexivity.
Defined.

(** The page of the sample: the section with an unknown name is left out,
    and a text without a body gives nothing. *)
Example extract_content_sample :
  extract_content sample_page = Some sample_fragment /\
  body_of sample_page = Some sample_body /\
  extract_content (L "<h2>Articles</h2><ol><li>a</li></ol>") = None.
Proof. repeat split; vm_compute; reflexivity. Qed.

End ExtractContent.

(** ** [generate_rss] *)

Section GenerateRss.

Lemma findall_items (l : list issue) :
  filter (fun c => str_eqb (tag c) (L "item")) (map item_of l) = map item_of l.
Proof.
  induction l as [|i l IH]; [reflexivity|]. cbn [map filter].
  change (str_eqb (tag (item_of i)) (L "item")) with true.
  cbv iota. rewrite IH; reflexivity.
Qed.

Lemma findall_no_items (l : list issue) :
  filter (fun c => str_eqb (tag c) (L "lastBuildDate")) (map item_of l) = [].
Proof.
  induction l as [|i l IH]; [reflexivity|]. cbn [map filter].
  change (str_eqb (tag (item_of i)) (L "lastBuildDate")) with false.
  cbv iota. exact IH.
Qed.

Lemma item_count_le (n : nat) (m : Z) : item_count n m <= n.
Proof. unfold item_count; destruct (0 <=? m)%Z; lia. Qed.

(** The slice [[:max_items]] is the first [item_count] issues. *)
Lemma slice_to_firstn (issues : list issue) (m : Z) :
  slice_to issues m = firstn (item_count (length issues) m) issues.
Proof.
  unfold slice_to, item_count. destruct (0 <=? m)%Z; [|reflexivity].
  destruct (Nat.le_gt_cases (Z.to_nat m) (length issues)) as [Hle|Hgt].
  - rewrite Nat.min_l by exact Hle; reflexivity.
  - rewrite Nat.min_r by lia. rewrite firstn_all, firstn_all2 by lia.
    reflexivity.
Qed.

Lemma channel_items (issues : list issue) (m : Z) :
  findall (channel_tree issues m) (L "item")
  = map item_of (firstn (item_count (length issues) m) issues).
Proof.
  unfold findall, channel_tree; cbn [children].
  rewrite !filter_app, findall_items, slice_to_firstn.
  destruct issues; reflexivity.
Qed.

(** What is written between the tags of an element with a text that is
    not empty: the text with [&], [<] and [>] replaced. *)
Lemma tostring_text_elem (t x : str) :
  x <> [] ->
  tostring (text_elem t x) = L "<" ++ t ++ L ">" ++ _escape_cdata x ++ L "</" ++ t ++ L ">".
Proof.
  intros Hx. destruct x as [|a x]; [contradiction|].
  unfold tostring, text_elem. cbn [_serialize_xml truthy flat_map orb].
  rewrite !app_nil_l. reflexivity.
Qed.

(** The text of the description of an item: the content when there is
    one that is not empty, and otherwise the fixed sentence with the
    issue's [date_text]. *)
Lemma description_text (i : issue) :
  text (description_of i)
  = Some (match content i with
          | Some (a :: c) => a :: c
          | _ => L "Weekly summary of the most edited Wikipedia articles and discussions for the week ending "
                 ++ date_text i ++ L "."
          end).
Proof.
  unfold description_of, fallback_description.
  destruct (content i) as [[|a c]|]; reflexivity.
Qed.

(** How the description of an issue with content is written: the content
    with its [&], [<] and [>] replaced. *)
Lemma description_serialized (i : issue) (c : str) :
  content i = Some c -> c <> [] ->
  tostring (description_of i)
  = L "<description>" ++ _escape_cdata c ++ L "</description>".
Proof.
  intros Hc Hne. unfold description_of. rewrite Hc.
  destruct c as [|a c]; [contradiction|]. cbn [truthy].
  apply (tostring_text_elem (L "description") (a :: c)). discriminate.
Qed.

Lemma escape_plain (s : str) : forallb plain s = true -> _escape_cdata s = s.
Proof.
  unfold _escape_cdata, replace, plain.
  induction s as [|a s IH]; [reflexivity|]. cbn [forallb].
  rewrite !andb_true_iff, !negb_true_iff. intros [[[Ha Hl] Hg] Hs].
  cbn [flat_map]. rewrite Ha. cbn [app flat_map]. rewrite Hl.
  cbn [app flat_map]. rewrite Hg. cbn [app]. f_equal. apply IH; exact Hs.
Qed.

Lemma digit_char_plain (z : Z) : plain (digit_char (z mod 10)) = true.
Proof.
  pose proof (Z.mod_pos_bound z 10 ltac:(lia)) as H.
  assert (Hr : (z mod 10 = 0 \/ z mod 10 = 1 \/ z mod 10 = 2 \/ z mod 10 = 3
                \/ z mod 10 = 4 \/ z mod 10 = 5 \/ z mod 10 = 6
                \/ z mod 10 = 7 \/ z mod 10 = 8 \/ z mod 10 = 9)%Z) by lia.
  repeat (destruct Hr as [->|Hr]; [reflexivity|]). rewrite Hr; reflexivity.
Qed.

(** A formatted date has nothing to escape, and is not empty. *)
Lemma strftime_plain (d : datetime) : forallb plain (strftime d) = true.
Proof.
  unfold strftime. rewrite !forallb_app.
  assert (Ha : forallb plain (fmt_a d) = true).
  { unfold fmt_a. generalize (Z.to_nat (weekday d)); intros k.
    do 8 (destruct k as [|k]; [reflexivity|]). destruct k; reflexivity. }
  assert (Hb : forallb plain (fmt_b d) = true).
  { unfold fmt_b. generalize (Z.to_nat (month d)); intros k.
    do 14 (destruct k as [|k]; [reflexivity|]). destruct k; reflexivity. }
  rewrite Ha, Hb. unfold fmt_d, fmt_Y. cbn [forallb].
  rewrite !digit_char_plain. reflexivity.
Qed.

Lemma strftime_nonempty (d : datetime) : strftime d <> [].
Proof. unfold strftime; destruct (fmt_a d); discriminate. Qed.

Lemma flat_map_serialize (l : list issue) :
  flat_map _serialize_xml (map item_of l)
  = flat_map (fun i => tostring (item_of i)) l.
Proof. induction l as [|i l IH]; [reflexivity|]. cbn [map flat_map]. rewrite IH. reflexivity. Qed.

(** The document: the fixed head, the [lastBuildDate] element when there
    is an issue, one item for each of the first issues, and the closing
    tags. *)
Lemma generate_rss_document (issues : list issue) (m : Z) :
  generate_rss issues m
  = feed_head ++ last_build_text issues
    ++ flat_map (fun i => tostring (item_of i))
         (firstn (item_count (length issues) m) issues)
    ++ L "</channel></rss>".
Proof.
  unfold generate_rss, tostring, rss_tree, channel_tree, feed_head.
  rewrite slice_to_firstn.
  set (items := firstn _ issues).
  cbn [_serialize_xml truthy orb flat_map length app Nat.eqb negb fst snd].
  rewrite !app_nil_r. rewrite flat_map_app, flat_map_serialize.
  assert (Hl : flat_map _serialize_xml
                 match issues with
                 | [] => []
                 | first :: _ =>
                     [text_elem (L "lastBuildDate") (strftime (date first))]
                 end
               = last_build_text issues).
  { destruct issues as [|first rest]; [reflexivity|].
    cbn [flat_map last_build_text]. rewrite app_nil_r.
    change (_serialize_xml (text_elem (L "lastBuildDate") (strftime (date first))))
      with (tostring (text_elem (L "lastBuildDate") (strftime (date first)))).
    rewrite tostring_text_elem by apply strftime_nonempty.
    rewrite (escape_plain _ (strftime_plain (date first))).
    reflexivity. }
  rewrite Hl.
  change (fun i : issue => _serialize_xml (item_of i))
    with (fun i : issue => tostring (item_of i)).
  rewrite (app_assoc (last_build_text issues)).
  generalize (last_build_text issues
              ++ flat_map (fun i : issue => tostring (item_of i)) items).
  intros X. rewrite <- !app_assoc. reflexivity.
Qed.

Example strftime_sample :
  strftime (mk_datetime 2025 1 2) = L "Thu, 02 Jan 2025 12:00:00 GMT".
Proof. vm_compute; reflexivity. Qed.

(** C1, on the code: the content of an issue is its item's description
    text, but [ET.tostring] writes that text with [<], [>] and [&]
    replaced by [&lt;], [&gt;] and [&amp;], and nothing in [generate_rss]
    wraps it in a CDATA section or undoes the replacement.  The feed for
    one issue whose content is a level-3 heading and a list has the
    markup of the content escaped. *)
Theorem generate_rss_escapes_content :
  text (description_of content_issue) = content content_issue /\
  generate_rss [content_issue] default_max_items = content_feed.
Proof. split; vm_compute; reflexivity. Qed.

(** C8: the channel has a [lastBuildDate] element exactly when there is
    an issue, and then one, whose text is the date of the first issue as
    weekday, day, month and year followed by the fixed [12:00:00 GMT]; it
    is written as such in the document, after the four fixed fields and
    before the items.  Without issues the channel has its four fixed
    fields and nothing else, and the document is the empty feed. *)
Theorem generate_rss_last_build_date (issues : list issue) (max_items : Z) :
  (issues <> [] <->
   findall (channel_tree issues max_items) (L "lastBuildDate") <> []) /\
  (forall first rest,
     issues = first :: rest ->
     findall (channel_tree issues max_items) (L "lastBuildDate")
     = [text_elem (L "lastBuildDate")
          (fmt_a (date first) ++ L ", " ++ fmt_d (date first) ++ L " "
           ++ fmt_b (date first) ++ L " " ++ fmt_Y (date first)
           ++ L " 12:00:00 GMT")] /\
     exists items,
       generate_rss issues max_items
       = feed_head
         ++ L "<lastBuildDate>"
         ++ (fmt_a (date first) ++ L ", " ++ fmt_d (date first) ++ L " "
             ++ fmt_b (date first) ++ L " " ++ fmt_Y (date first)
             ++ L " 12:00:00 GMT")
         ++ L "</lastBuildDate>" ++ items ++ L "</channel></rss>") /\
  children (channel_tree [] max_items)
  = [ text_elem (L "title") (L "Weeklypedia");
      text_elem (L "link") (L "https://weekly.hatnote.com/");
      text_elem (L "description")
        (L "The most edited Wikipedia articles and discussions from the last week");
      text_elem (L "language") (L "en") ] /\
  generate_rss [] max_items = empty_feed.
Proof.
  assert (Hl : forall first rest,
            findall (channel_tree (first :: rest) max_items) (L "lastBuildDate")
            = [text_elem (L "lastBuildDate") (strftime (date first))]).
  { intros first rest. unfold findall, channel_tree; cbn [children].
    rewrite !filter_app, findall_no_items. reflexivity. }
  assert (Hs : forall m, slice_to (@nil issue) m = []).
  { intros m; unfold slice_to; destruct (0 <=? m)%Z;
      [apply firstn_nil | reflexivity]. }
  split; [split|split; [|split]].
  - intros Hne. destruct issues as [|first rest]; [contradiction|].
    rewrite Hl; discriminate.
  - intros Hne ->. apply Hne. unfold findall, channel_tree; cbn [children].
    rewrite Hs; reflexivity.
  - intros first rest ->. split; [apply Hl|].
    exists (flat_map (fun i => tostring (item_of i))
              (firstn (item_count (length (first :: rest)) max_items)
                 (first :: rest))).
    rewrite generate_rss_document. cbn [last_build_text].
    f_equal. unfold strftime. rewrite <- !app_assoc. reflexivity.
  - unfold channel_tree; cbn [children]. rewrite Hs; reflexivity.
  - unfold generate_rss, rss_tree, channel_tree. rewrite Hs. reflexivity.
Qed.

(** C9 (as the code has it): the items of the channel are those of the
    first issues, in order, as many as the slice [[:max_items]] keeps:
    the smaller of [max_items] and the number of issues when [max_items]
    is not negative, and all but the last [-max_items] when it is.  Each
    item has the title, the address as link and as guid, the date with
    the fixed time as pubDate, and the description; the document has the
    items, in that order, after the head of the channel. *)
Theorem generate_rss_items (issues : list issue) (max_items : Z) :
  findall (channel_tree issues max_items) (L "item")
  = map item_of (firstn (item_count (length issues) max_items) issues) /\
  length (findall (channel_tree issues max_items) (L "item"))
  = item_count (length issues) max_items /\
  ((0 <= max_items)%Z ->
   Z.of_nat (length (findall (channel_tree issues max_items) (L "item")))
   = Z.min max_items (Z.of_nat (length issues))) /\
  (forall i,
     item_of i
     = Elem (L "item") [] None
         [ text_elem (L "title") (title i);
           text_elem (L "link") (url i);
           text_elem (L "guid") (url i);
           text_elem (L "pubDate")
             (fmt_a (date i) ++ L ", " ++ fmt_d (date i) ++ L " "
              ++ fmt_b (date i) ++ L " " ++ fmt_Y (date i) ++ L " 12:00:00 GMT");
           description_of i ]) /\
  generate_rss issues max_items
  = feed_head ++ last_build_text issues
    ++ flat_map (fun i => tostring (item_of i))
         (firstn (item_count (length issues) max_items) issues)
    ++ L "</channel></rss>".
Proof.
  assert (Hlen : length (findall (channel_tree issues max_items) (L "item"))
                 = item_count (length issues) max_items).
  { rewrite channel_items, length_map, length_firstn.
    pose proof (item_count_le (length issues) max_items). lia. }
  split; [apply channel_items|]. split; [exact Hlen|]. split; [|split].
  - intros Hm. rewrite Hlen. unfold item_count.
    destruct (0 <=? max_items)%Z eqn:E; [lia|].
    apply Z.leb_gt in E; lia.
  - reflexivity.
  - apply generate_rss_document.
Qed.

(** C9, as stated, fails for a negative [max_items]: of two issues,
    [[:-1]] keeps one, and the smaller of -1 and 2 is -1. *)
Lemma generate_rss_negative_max_items :
  length (findall (channel_tree [mixed_issue; jan9_issue] (-1)) (L "item")) = 1
  /\ Z.min (-1) (Z.of_nat (length [mixed_issue; jan9_issue])) = (-1)%Z.
Proof. split; vm_compute; reflexivity. Qed.

(** Ten issues and [max_items = 3]: three items, those of the first three
    issues. *)
Example generate_rss_truncates (i : issue) (rest : list issue) :
  length rest = 7 ->
  findall (channel_tree (mixed_issue :: jan9_issue :: i :: rest) 3) (L "item")
  = [item_of mixed_issue; item_of jan9_issue; item_of i].
Proof.
  intros H. rewrite channel_items. cbn [length]. rewrite H. reflexivity.
Qed.

End GenerateRss.

(** A fragment comes only from a text with a body region, and is not
    empty. *)
Lemma extract_content_Some (html frag : str) :
  extract_content html = Some frag -> has_body html /\ frag <> [].
Proof.
  rewrite extract_content_sections.
  destruct (body_of html) as [body|] eqn:Hb; [|discriminate].
  destruct (body_of_Some html body Hb) as (pre & attrs & post & Hh & Ha).
  intros E; split.
  - exists pre, attrs, body, post; auto.
  - destruct (map wrapped _) as [|x l] eqn:Hm; [discriminate|].
    assert (Hx : x <> []).
    { destruct (filter kept _) as [|m ms]; [discriminate Hm|].
      cbn [map] in Hm. injection Hm as <- _. discriminate. }
    assert (E' : join [newline] (x :: l) = frag)
      by (injection E; intros E0; exact E0).
    rewrite <- E'. apply join_nonempty; exact Hx.
Qed.

(** ** The program: [fetch_issue_content] and [main] *)

Section ProgramFacts.

Variable network : nat -> str -> response.

(** One call of [fetch_issue_content], whatever the network answers. *)
Lemma fetch_issue_content_run (url : str) (w : world) :
  fetch_issue_content network url w
  = (Returned (page_content network (length (requests w)) url),
     {| requests := requests w ++ [url];
        stdout := stdout w
                  ++ match network (length (requests w)) url with
                     | Body _ => []
                     | Error e => [warning_line url e]
                     end;
        sleeps := sleeps w;
        files := files w |}).
Proof.
  unfold fetch_issue_content, io_try, io_bind, fetch_url, page_content,
    io_ret, print, warning_line.
  destruct (network (length (requests w)) url) as [text|e]; simpl.
  - rewrite app_nil_r; reflexivity.
  - reflexivity.
Qed.

Lemma set_content_at (pre : list issue) (x : issue) (post : list issue)
  (c : option str) :
  set_content (length pre) c (pre ++ x :: post)
  = pre ++ with_content c x :: post.
Proof.
  induction pre as [|y pre IH]; simpl; [reflexivity|].
  rewrite IH; reflexivity.
Qed.

(** The loop of [main], from any point of it. *)
Lemma main_loop_run (slice : list issue) :
  forall (pre rest : list issue) (w : world),
    main_loop network (length pre) slice (pre ++ slice ++ rest) w
    = (Returned (pre ++ enriched network (length (requests w)) (length slice)
                          (slice ++ rest)),
       {| requests := requests w ++ map url slice;
          stdout := stdout w
                    ++ loop_lines network (length (requests w)) (length pre)
                         slice;
          sleeps := sleeps w + length slice;
          files := files w |}).
Proof.
  induction slice as [|x slice IH]; intros pre rest w.
  - simpl. unfold io_ret. rewrite !app_nil_r, Nat.add_0_r.
    destruct w; reflexivity.
  - cbn [main_loop]. unfold io_bind at 1. unfold print at 1.
    unfold io_bind at 1. rewrite fetch_issue_content_run.
    cbn [requests stdout sleeps files]. unfold io_bind at 1, sleep at 1.
    cbn [requests stdout sleeps files].
    rewrite <- app_comm_cons, set_content_at.
    replace (pre ++ with_content (page_content network (length (requests w)) (url x)) x
                 :: slice ++ rest)
      with ((pre ++ [with_content (page_content network (length (requests w)) (url x)) x])
            ++ slice ++ rest)
      by (rewrite <- app_assoc; reflexivity).
    replace (S (length pre))
      with (length (pre ++ [with_content (page_content network (length (requests w)) (url x)) x]))
      by (rewrite length_app; simpl; lia).
    rewrite IH. cbn [requests stdout sleeps files].
    rewrite !length_app. cbn [length map enriched loop_lines].
    rewrite !Nat.add_1_r. f_equal.
    + rewrite <- app_assoc; reflexivity.
    + f_equal.
      * rewrite <- app_assoc; reflexivity.
      * rewrite <- !app_assoc. reflexivity.
      * lia.
Qed.

Lemma enriched_firstn (k n : nat) (issues : list issue) :
  enriched network k (length (firstn n issues)) issues
  = enriched network k n issues.
Proof.
  revert k n; induction issues as [|x xs IH]; intros k n.
  - destruct n; reflexivity.
  - destruct n as [|n]; [reflexivity|]. cbn [firstn length enriched].
    rewrite IH; reflexivity.
Qed.

(** The whole loop, on the first [n] issues. *)
Lemma main_loop_slice (n : nat) (issues : list issue) (w : world) :
  main_loop network 0 (firstn n issues) issues w
  = (Returned (enriched network (length (requests w)) n issues),
     {| requests := requests w ++ map url (firstn n issues);
        stdout := stdout w
                  ++ loop_lines network (length (requests w)) 0
                       (firstn n issues);
        sleeps := sleeps w + length (firstn n issues);
        files := files w |}).
Proof.
  pose proof (main_loop_run (firstn n issues) [] (skipn n issues) w) as H.
  cbn [app length] in H. rewrite firstn_skipn in H.
  rewrite H, enriched_firstn. reflexivity.
Qed.

(** [main] when the index cannot be fetched, and when it can. *)
Lemma main_run_error (w : world) (e : str) :
  network (length (requests w)) ARCHIVE_URL = Error e ->
  main network w
  = (Uncaught e,
     {| requests := requests w ++ [ARCHIVE_URL];
        stdout := stdout w ++ [L "Fetching Weeklypedia archive..."];
        sleeps := sleeps w;
        files := files w |}).
Proof.
  intros H. unfold main, io_bind, print, fetch_url.
  cbn [requests stdout sleeps files]. rewrite H. reflexivity.
Qed.

Lemma main_run_body (w : world) (html : str) (issues : list issue) :
  network (length (requests w)) ARCHIVE_URL = Body html ->
  parse_issues html = Ok issues ->
  main network w
  = (Returned tt,
     {| requests := requests w ++ ARCHIVE_URL :: map url (firstn 10 issues);
        stdout := stdout w
                  ++ [L "Fetching Weeklypedia archive...";
                      L "Parsing issues...";
                      L "Found " ++ decimal (Z.of_nat (length issues))
                      ++ L " issues";
                      L "Fetching content for 10 most recent issues..."]
                  ++ loop_lines network (S (length (requests w))) 0
                       (firstn 10 issues)
                  ++ [L "Generating RSS feed..."; L "Written to feed.xml"];
        sleeps := sleeps w + length (firstn 10 issues);
        files := (L "feed.xml",
                  generate_rss
                    (enriched network (S (length (requests w))) 10 issues)
                    default_max_items)
                 :: files w |}).
Proof.
  intros Hnet Hparse. unfold main.
  unfold io_bind at 1. unfold print at 1.
  unfold io_bind at 1. unfold fetch_url at 1.
  cbn [requests stdout sleeps files]. rewrite Hnet.
  unfold io_bind at 1. unfold print at 1.
  cbn [requests stdout sleeps files].
  unfold io_bind at 1. rewrite Hparse. unfold io_lift at 1.
  unfold io_bind at 1. unfold print at 1.
  cbn [requests stdout sleeps files].
  unfold io_bind at 1. unfold print at 1.
  cbn [requests stdout sleeps files].
  unfold io_bind at 1.
  change (slice_to issues FETCH_CONTENT_COUNT) with (firstn 10 issues).
  rewrite main_loop_slice. cbn [requests stdout sleeps files].
  unfold io_bind, print, write_file. cbn [requests stdout sleeps files].
  rewrite length_app. cbn [length]. rewrite Nat.add_1_r.
  f_equal. f_equal.
  - rewrite <- app_assoc; reflexivity.
  - rewrite <- !app_assoc. reflexivity.
Qed.

Lemma read_file_other (name other : str) (text : str)
  (fs : list (str * str)) :
  name <> other ->
  read_file name ((other, text) :: fs) = read_file name fs.
Proof.
  intros Hne. cbn [read_file]. unfold str_eqb.
  destruct (list_eq_dec ascii_dec other name); [congruence | reflexivity].
Qed.

(** X1: [fetch_issue_content] lets no exception out.  It asks for the
    address once, takes no pause and writes no file.  When the page
    comes, it returns what [extract_content] finds in it and prints
    nothing; when the request fails, it returns [None] and prints one
    warning with the address and the error.  So a fragment is returned
    only for a page that came and has a body region. *)
Theorem fetch_issue_content_never_raises (url : str) (w : world) :
  exists c w',
    fetch_issue_content network url w = (Returned c, w') /\
    requests w' = requests w ++ [url] /\
    sleeps w' = sleeps w /\ files w' = files w /\
    (forall text,
       network (length (requests w)) url = Body text ->
       c = extract_content text /\ stdout w' = stdout w) /\
    (forall e,
       network (length (requests w)) url = Error e ->
       c = None /\
       stdout w'
       = stdout w ++ [L "  Warning: Failed to fetch " ++ url ++ L ": " ++ e]) /\
    (forall frag,
       c = Some frag ->
       exists text,
         network (length (requests w)) url = Body text /\
         has_body text /\ frag <> []).
Proof.
  eexists; eexists. split; [apply fetch_issue_content_run|].
  cbn [requests stdout sleeps files]. unfold page_content.
  destruct (network (length (requests w)) url) as [text|e] eqn:E.
  - split; [reflexivity|]. split; [reflexivity|]. split; [reflexivity|].
    split; [|split].
    + intros t [= <-]; split; [reflexivity | apply app_nil_r].
    + discriminate.
    + intros frag Hc. exists text; split; [reflexivity|].
      apply extract_content_Some; exact Hc.
  - split; [reflexivity|]. split; [reflexivity|]. split; [reflexivity|].
    split; [|split].
    + discriminate.
    + intros e' [= <-]; split; reflexivity.
    + discriminate.
Qed.

(** X2: when the index cannot be fetched, [main] ends with that
    exception after its first line and one request: it writes no file,
    asks for no issue page and takes no pause. *)
Theorem main_stops_without_index (w : world) (e : str) :
  network (length (requests w)) ARCHIVE_URL = Error e ->
  exists w',
    main network w = (Uncaught e, w') /\
    files w' = files w /\
    requests w' = requests w ++ [ARCHIVE_URL] /\
    stdout w' = stdout w ++ [L "Fetching Weeklypedia archive..."] /\
    sleeps w' = sleeps w.
Proof.
  intros H. eexists. split; [apply main_run_error; exact H|].
  repeat split.
Qed.

(** X3: when the index is fetched, [main] ends without an exception
    whatever becomes of the requests for the issue pages, and [feed.xml]
    then holds the feed of the issues of the index, the first ten of them
    with the content of their pages, at most fifty items; no other file
    is touched. *)
Theorem main_writes_feed (w : world) (html : str) :
  network (length (requests w)) ARCHIVE_URL = Body html ->
  exists issues w',
    parse_issues html = Ok issues /\
    main network w = (Returned tt, w') /\
    read_file (L "feed.xml") (files w')
    = Some (generate_rss
              (enriched network (S (length (requests w))) 10 issues) 50) /\
    (forall name,
       name <> L "feed.xml" ->
       read_file name (files w') = read_file name (files w)).
Proof.
  intros H. exists (flat_map entry (findall2 pattern html)). eexists.
  split; [apply parse_issues_entries|].
  split; [apply (main_run_body w html); [exact H | apply parse_issues_entries]|].
  cbn [files]. split; [reflexivity|].
  intros name Hne. apply read_file_other; exact Hne.
Qed.

(** X4: [main] asks for the index and then for the pages of the first
    ten issues, in their order, and for nothing else: eleven requests at
    most, with one pause after each issue page. *)
Theorem main_requests (w : world) (html : str) (issues : list issue) :
  network (length (requests w)) ARCHIVE_URL = Body html ->
  parse_issues html = Ok issues ->
  requests (snd (main network w))
  = requests w ++ ARCHIVE_URL :: map url (firstn 10 issues) /\
  sleeps (snd (main network w)) = sleeps w + Nat.min 10 (length issues) /\
  length (requests (snd (main network w))) <= length (requests w) + 11.
Proof.
  intros H Hp. rewrite (main_run_body w html issues H Hp).
  cbn [snd requests sleeps]. rewrite length_firstn.
  split; [reflexivity|]. split; [reflexivity|].
  rewrite length_app. cbn [length]. rewrite length_map, length_firstn. lia.
Qed.

Lemma enriched_length (k n : nat) (issues : list issue) :
  length (enriched network k n issues) = length issues.
Proof.
  revert k n; induction issues as [|x xs IH]; intros k [|n]; try reflexivity.
  cbn [enriched length]. rewrite IH; reflexivity.
Qed.

Lemma enriched_map {A : Type} (f : issue -> A) (k n : nat)
  (issues : list issue) :
  (forall c x, f (with_content c x) = f x) ->
  map f (enriched network k n issues) = map f issues.
Proof.
  intros Hf. revert k n; induction issues as [|x xs IH]; intros k [|n];
    try reflexivity.
  cbn [enriched map]. rewrite Hf, IH; reflexivity.
Qed.

Lemma enriched_nth (k n : nat) (issues : list issue) (i : nat) :
  nth_error (enriched network k n issues) i
  = if i <? n
    then option_map
           (fun x => with_content (page_content network (k + i) (url x)) x)
           (nth_error issues i)
    else nth_error issues i.
Proof.
  revert k n i; induction issues as [|x xs IH]; intros k n i.
  - replace (enriched network k n []) with (@nil issue)
      by (destruct n; reflexivity).
    replace (nth_error (@nil issue) i) with (@None issue)
      by (destruct i; reflexivity).
    destruct (i <? n); reflexivity.
  - destruct n as [|n]; [reflexivity|]. destruct i as [|i].
    + cbn. rewrite Nat.add_0_r; reflexivity.
    + cbn [enriched nth_error]. rewrite IH.
      replace (S k + i) with (k + S i) by lia.
      change (S i <? S n) with (i <? n). reflexivity.
Qed.

(** X5: the loop of [main] changes nothing but the content of the first
    ten issues: the list keeps its length and every issue its address,
    title, date and date text; the issue at a place below ten gets the
    content of its page (or none, when the request fails), asked for in
    that order, and the issues from the tenth place on are as they
    were. *)
Theorem main_loop_sets_content_only (issues : list issue) (w : world) :
  exists issues' w',
    main_loop network 0 (slice_to issues FETCH_CONTENT_COUNT) issues w
    = (Returned issues', w') /\
    length issues' = length issues /\
    map url issues' = map url issues /\
    map title issues' = map title issues /\
    map date issues' = map date issues /\
    map date_text issues' = map date_text issues /\
    (forall i x,
       i < 10 -> nth_error issues i = Some x ->
       nth_error issues' i
       = Some {| url := url x; title := title x; date := date x;
                 date_text := date_text x;
                 content := page_content network (length (requests w) + i)
                              (url x) |}) /\
    (forall i, 10 <= i -> nth_error issues' i = nth_error issues i).
Proof.
  eexists; eexists.
  change (slice_to issues FETCH_CONTENT_COUNT) with (firstn 10 issues).
  split; [apply main_loop_slice|].
  split; [apply enriched_length|].
  split; [apply enriched_map; reflexivity|].
  split; [apply enriched_map; reflexivity|].
  split; [apply enriched_map; reflexivity|].
  split; [apply enriched_map; reflexivity|].
  split.
  - intros i x Hi Hx. rewrite enriched_nth, Hx.
    apply Nat.ltb_lt in Hi; rewrite Hi. reflexivity.
  - intros i Hi. rewrite enriched_nth.
    apply Nat.ltb_ge in Hi; rewrite Hi. reflexivity.
Qed.

End ProgramFacts.

Lemma main_stops_without_index_witness :
  exists w',
    main network_down new_world = (Uncaught (L "<urlopen error timed out>"), w') /\
    files w' = files new_world /\
    requests w' = requests new_world ++ [ARCHIVE_URL] /\
    stdout w' = stdout new_world ++ [L "Fetching Weeklypedia archive..."] /\
    sleeps w' = sleeps new_world.
Proof.
  apply (main_stops_without_index network_down new_world). reflexivity.
Defined.

Lemma main_writes_feed_witness :
  exists issues w',
    parse_issues (index sample_index (L "</li></ul>")) = Ok issues /\
    main sample_network new_world = (Returned tt, w') /\
    read_file (L "feed.xml") (files w')
    = Some (generate_rss
              (enriched sample_network (S (length (requests new_world))) 10
                 issues) 50) /\
    (forall name,
       name <> L "feed.xml" ->
       read_file name (files w') = read_file name (files new_world)).
Proof.
  apply (main_writes_feed sample_network new_world). reflexivity.
Defined.

Lemma main_requests_witness :
  requests (snd (main sample_network new_world))
  = requests new_world
    ++ ARCHIVE_URL :: map url (firstn 10 [jan9_issue; mixed_issue; jan9_issue]) /\
  sleeps (snd (main sample_network new_world))
  = sleeps new_world + Nat.min 10 (length [jan9_issue; mixed_issue; jan9_issue]) /\
  length (requests (snd (main sample_network new_world)))
  <= length (requests new_world) + 11.
Proof.
  apply (main_requests sample_network new_world
           (index sample_index (L "</li></ul>"))).
  - reflexivity.
  - vm_compute; reflexivity.
Defined.

(** ** What is written can be read back *)

Section Escaping.

Lemma replace_app (c : ascii) (by_ x y : str) :
  replace c by_ (x ++ y) = replace c by_ x ++ replace c by_ y.
Proof. unfold replace; apply flat_map_app. Qed.

Lemma escape_app (x y : str) :
  _escape_cdata (x ++ y) = _escape_cdata x ++ _escape_cdata y.
Proof. unfold _escape_cdata; rewrite !replace_app; reflexivity. Qed.

Lemma escape_one (a : ascii) :
  _escape_cdata [a]
  = if Ascii.eqb a "&" then L "&amp;"
    else if Ascii.eqb a "<" then L "&lt;"
    else if Ascii.eqb a ">" then L "&gt;"
    else [a].
Proof.
  unfold _escape_cdata, replace. cbn [flat_map].
  destruct (Ascii.eqb_spec a "&") as [->|H1]; [reflexivity|].
  cbn [app flat_map].
  destruct (Ascii.eqb_spec a "<") as [->|H2]; [reflexivity|].
  cbn [app flat_map].
  destruct (Ascii.eqb_spec a ">") as [->|H3]; reflexivity.
Qed.

Lemma escape_no_angle (s : str) : forallb no_angle (_escape_cdata s) = true.
Proof.
  induction s as [|a s IH]; [reflexivity|].
  change (a :: s) with ([a] ++ s). rewrite escape_app, forallb_app, IH.
  rewrite escape_one, andb_true_r.
  destruct (Ascii.eqb_spec a "&"); [reflexivity|].
  destruct (Ascii.eqb_spec a "<") as [|H2]; [reflexivity|].
  destruct (Ascii.eqb_spec a ">") as [|H3]; [reflexivity|].
  cbn [forallb]. unfold no_angle.
  apply Ascii.eqb_neq in H2, H3. rewrite H2, H3. reflexivity.
Qed.

(** Reading back what was written gives the text. *)
Lemma unescape_escape (s : str) : unescape (_escape_cdata s) 0 = s.
Proof.
  induction s as [|a s IH]; [reflexivity|].
  change (a :: s) with ([a] ++ s). rewrite escape_app, escape_one.
  destruct (Ascii.eqb_spec a "&") as [->|H1].
  - cbn. rewrite IH; reflexivity.
  - destruct (Ascii.eqb_spec a "<") as [->|H2].
    + cbn. rewrite IH; reflexivity.
    + destruct (Ascii.eqb_spec a ">") as [->|H3].
      * cbn. rewrite IH; reflexivity.
      * cbn [app unescape]. apply Ascii.eqb_neq in H1. rewrite H1, IH.
        reflexivity.
Qed.

Lemma description_body_nonempty (i : issue) : description_body i <> [].
Proof.
  unfold description_body. destruct (content i) as [[|a c]|]; discriminate.
Qed.

(** X6: the description of an item is written between its tags with no
    [<] and no [>] of its own, so that no content can open or close a
    tag of the feed, and reading the three entities back gives the text
    as it was: the content of the issue when it has one that is not
    empty, and the sentence with its date text otherwise. *)
Theorem description_reads_back (i : issue) :
  exists written,
    tostring (description_of i)
    = L "<description>" ++ written ++ L "</description>" /\
    forallb no_angle written = true /\
    unescape written 0 = description_body i /\
    description_body i
    = match content i with
      | Some (a :: c) => a :: c
      | _ =>
          L "Weekly summary of the most edited Wikipedia articles and discussions for the week ending "
          ++ date_text i ++ L "."
      end.
Proof.
  exists (_escape_cdata (description_body i)).
  split; [|split; [apply escape_no_angle | split; [apply unescape_escape | reflexivity]]].
  assert (E : description_of i = text_elem (L "description") (description_body i)).
  { unfold description_of, description_body, fallback_description.
    destruct (content i) as [[|a c]|]; reflexivity. }
  rewrite E. apply (tostring_text_elem (L "description")).
  apply description_body_nonempty.
Qed.

End Escaping.

(** ** The date of the path in the date of the item *)

Section DateDigits.










End DateDigits.

(** ** The body region *)

Section BodyRegion.
Import ReFacts.

Ltac app_norm := repeat (progress (simpl; rewrite <- ?app_assoc)).

(** The first match of the body pattern at a position: the attributes run
    to the first [>], and the region ends before the first [</body>]. *)
Lemma body_first (s2 rest : str) (cm : caps) :
  match_at body_pattern s2 = Some (cm, rest) ->
  exists attrs body,
    s2 = L "<body" ++ attrs ++ L ">" ++ body ++ L "</body>" ++ rest /\
    forallb (not_ch ">") attrs = true /\
    group 1 cm = body /\
    (forall b1 b2, body = b1 ++ b2 -> b2 <> [] ->
       strip_prefix (L "</body>") (b2 ++ L "</body>" ++ rest) = None).
Proof.
  intros H. pose proof (match_at_sound _ _ _ _ H) as (w & c' & -> & M & _).
  apply matches_body in M as (attrs & inner & -> & Ha & _).
  replace ((L "<body" ++ attrs ++ L ">" ++ inner ++ L "</body>") ++ rest)
    with (L "<body" ++ attrs ++ ">"%char :: inner ++ L "</body>" ++ rest) in H
    by (app_norm; reflexivity).
  unfold match_at, body_pattern in H.
  rewrite run_Grp, hd_error_map, run_Lit_app in H.
  rewrite (run_StarG_then (not_ch ">") ">" [] _ attrs _ [] Ha eq_refl) in H.
  rewrite (run_Lit_app (L ">") _ (inner ++ L "</body>" ++ rest)) in H.
  rewrite run_Seq, run_Grp, run_StarL, map_map, flat_map_map in H.
  cbn [fst snd] in H.
  destruct (hd_error (flat_map _ (lazy any _))) as [[c2 r2]|] eqn:E;
    [|discriminate H].
  cbn [option_map fst snd] in H. injection H as <- ->.
  apply lazy_first in E as (w & r & Hsplit & Hfail & Hhd).
  cbn [run] in Hhd, Hfail.
  destruct (strip_prefix (L "</body>") r) as [s'|] eqn:Er; [|discriminate Hhd].
  cbn in Hhd. injection Hhd as <- ->.
  apply strip_prefix_spec in Er. subst r.
  assert (Hw : w = inner).
  { apply (app_inv_tail (L "</body>" ++ rest)). symmetry; exact Hsplit. }
  subst w. exists attrs, inner. split; [app_norm; reflexivity|].
  split; [exact Ha|]. split.
  - cbn [group Nat.eqb]. apply consumed_app.
  - intros b1 b2 Hb Hne. specialize (Hfail b1 b2 Hb Hne).
    destruct (strip_prefix (L "</body>") (b2 ++ L "</body>" ++ rest));
      [discriminate Hfail | reflexivity].
Qed.

(** A body region between plain tags is found again as it is. *)
Lemma body_alone (body rest : str) :
  (forall b1 b2, body = b1 ++ b2 -> b2 <> [] ->
     strip_prefix (L "</body>") (b2 ++ L "</body>" ++ rest) = None) ->
  exists cm,
    match_at body_pattern (L "<body>" ++ body ++ L "</body>") = Some (cm, [])
    /\ group 1 cm = body.
Proof.
  intros Hfail.
  assert (Hfail' : forall w1 w2, body = w1 ++ w2 -> w2 <> [] ->
            (fun x => run (Lit (L "</body>")) x
                        [(1, consumed (body ++ L "</body>") x)])
              (w2 ++ L "</body>") = []).
  { intros w1 w2 Hw Hne. specialize (Hfail w1 w2 Hw Hne). cbn [run].
    destruct (strip_prefix (L "</body>") (w2 ++ L "</body>")) as [s'|] eqn:E;
      [|reflexivity].
    apply strip_prefix_spec in E.
    rewrite app_assoc, E, <- app_assoc, strip_prefix_app in Hfail.
    discriminate Hfail. }
  unfold match_at, body_pattern.
  change (L "<body>" ++ body ++ L "</body>")
    with (L "<body" ++ [] ++ ">"%char :: body ++ L "</body>").
  rewrite run_Grp, hd_error_map, run_Lit_app.
  rewrite (run_StarG_then (not_ch ">") ">" [] _ [] _ [] eq_refl eq_refl).
  rewrite (run_Lit_app (L ">") _ (body ++ L "</body>")).
  rewrite run_Seq, run_Grp, run_StarL, map_map, flat_map_map.
  cbn [fst snd].
  rewrite (lazy_skip _ body (L "</body>") Hfail').
  destruct (lazy_here
              (fun x => run (Lit (L "</body>")) x
                          [(1, consumed (body ++ L "</body>") x)])
              (L "</body>")) as (l & ->).
  change (run (Lit (L "</body>")) (L "</body>")
            [(1, consumed (body ++ L "</body>") (L "</body>"))])
    with [([(1, consumed (body ++ L "</body>") (L "</body>"))], @nil ascii)].
  cbn [app hd_error option_map fst snd].
  eexists; split; [reflexivity|].
  cbn [group Nat.eqb]. apply consumed_app.
Qed.

(** X8: the body region [extract_content] works on is the text between
    the first opening [<body ...>] tag that has a closing tag after it
    and the first [</body>] after that tag: no such pair begins earlier
    in the text, and no [</body>] begins inside the region.  What comes
    before and after has no part in the result: the region between plain
    tags gives the same. *)
Theorem body_region_is_first (html body : str) :
  body_of html = Some body ->
  (exists pre attrs post,
     html = pre ++ L "<body" ++ attrs ++ L ">" ++ body ++ L "</body>" ++ post /\
     forallb (not_ch ">") attrs = true /\
     (forall p1 p2, pre = p1 ++ p2 -> p2 <> [] ->
        ~ has_body_here
            (p2 ++ L "<body" ++ attrs ++ L ">" ++ body ++ L "</body>" ++ post)) /\
     (forall b1 b2, body = b1 ++ b2 -> b2 <> [] ->
        strip_prefix (L "</body>") (b2 ++ L "</body>" ++ post) = None)) /\
  extract_content html = extract_content (L "<body>" ++ body ++ L "</body>").
Proof.
  unfold body_of.
  destruct (search body_pattern html) as [[cm rest]|] eqn:E; [|discriminate].
  cbn [option_map fst]. intros [= Hbody].
  pose proof (search_Some _ _ _ E) as (pre & s2 & Hhtml & Hm & Hleft).
  destruct (body_first s2 rest cm Hm) as (attrs & body' & Hs2 & Ha & Hg & Hfail).
  assert (Hb : body' = body) by congruence.
  rewrite Hb in Hs2, Hfail, Hg. clear Hb body'. subst s2. subst html.
  destruct (body_alone body rest Hfail) as (cm' & Hm' & Hg').
  split.
  - exists pre, attrs, rest. split; [reflexivity|]. split; [exact Ha|].
    split; [|exact Hfail].
    intros p1 p2 -> Hne (attrs' & inner' & post' & Heq & Ha').
    assert (Hnone : match_at body_pattern
                      (p2 ++ L "<body" ++ attrs ++ L ">" ++ body
                          ++ L "</body>" ++ rest) = None).
    { apply (Hleft p1); [rewrite <- app_assoc; reflexivity|].
      rewrite length_app. destruct p2; [contradiction | simpl; lia]. }
    rewrite match_at_None in Hnone.
    apply (Hnone (L "<body" ++ attrs' ++ L ">" ++ inner' ++ L "</body>")
                 post' [(1, inner')]).
    + rewrite Heq. app_norm; reflexivity.
    + apply matches_body. exists attrs', inner'; auto.
  - unfold extract_content. rewrite E, (search_here _ _ _ Hm').
    cbn [fst]. rewrite Hg, Hg'. reflexivity.
Qed.

Lemma body_region_is_first_witness :
  (exists pre attrs post,
     sample_page
     = pre ++ L "<body" ++ attrs ++ L ">" ++ sample_body ++ L "</body>" ++ post /\
     forallb (not_ch ">") attrs = true /\
     (forall p1 p2, pre = p1 ++ p2 -> p2 <> [] ->
        ~ has_body_here
            (p2 ++ L "<body" ++ attrs ++ L ">" ++ sample_body ++ L "</body>"
                ++ post)) /\
     (forall b1 b2, sample_body = b1 ++ b2 -> b2 <> [] ->
        strip_prefix (L "</body>") (b2 ++ L "</body>" ++ post) = None)) /\
  extract_content sample_page
  = extract_content (L "<body>" ++ sample_body ++ L "</body>").
Proof.
  apply (body_region_is_first sample_page sample_body).
  vm_compute; reflexivity.
Defined.

End BodyRegion.

(** ** The feed, read back as a document *)

Section ReadBack.

















Lemma name_char_slash : name_char "/" = false.
Proof. reflexivity. Qed.














End ReadBack.


Section MainFeed.

Variable network : nat -> str -> response.







End MainFeed.



(** ** The size of the index, and the report of the run *)

Section IndexSize.

Lemma anchor_length (d1 d2 label : str) :
  token d1 -> token d2 -> label_ok label ->
  50 <= length (anchor (path_of d1 d2) label).
Proof.
  intros [H1 _] [H2 _] [Hl _]. unfold anchor, path_of.
  destruct label as [|a label]; [congruence|].
  cbn [app length L list_ascii_of_string].
  rewrite !length_app. cbn [length L list_ascii_of_string].
  rewrite !length_app. cbn [length L list_ascii_of_string].
  rewrite ?length_app. cbn [length L list_ascii_of_string]. lia.
Qed.

Lemma index_length (es : list index_entry) (tail : str) :
  Forall entry_ok es ->
  50 * length (flat_map index_issues es) <= length (index es tail).
Proof.
  intros Hes. induction Hes as [|[gap [[d1 d2] label]] es He Hes IH].
  - cbn. lia.
  - destruct He as (_ & H1 & H2 & Hl).
    cbn [flat_map index]. rewrite !length_app.
    pose proof (anchor_length d1 d2 label H1 H2 Hl).
    unfold index_issues at 1. destruct (calendar_date (token_date d1));
      cbn [length]; lia.
Qed.

(** X11: [parse_issues] returns on every text, it raises nothing: a
    token that is no date costs its anchor and no more.  Every issue it
    returns has a date of the calendar and no content yet, and stands for
    an anchor of at least fifty characters of the text, so a text gives
    at most one issue for each fifty of its characters. *)
Theorem parse_issues_never_raises (html : str) :
  exists issues,
    parse_issues html = Ok issues /\
    50 * length issues <= length html /\
    forall i, In i issues -> calendar_date (date i) = true /\ content i = None.
Proof.
  destruct (index_complete html) as (es & tail & Hes & Htail & ->).
  exists (flat_map index_issues es).
  assert (Hp : parse_issues (index es tail) = Ok (flat_map index_issues es)).
  { rewrite parse_issues_entries, (index_entries es tail Hes Htail). reflexivity. }
  split; [exact Hp|]. split; [apply index_length, Hes|].
  intros i Hin.
  destruct (parse_issues_In _ _ i Hp Hin)
    as (d1 & d2 & label & pre & post & _ & _ & _ & _ & Hd & ->).
  split; [exact Hd | reflexivity].
Qed.

End IndexSize.

Section Printing.

Variable network : nat -> str -> response.

Lemma loop_lines_length (k i : nat) (slice : list issue) :
  length slice <= length (loop_lines network k i slice) <= 2 * length slice.
Proof.
  revert k i. induction slice as [|x slice IH]; intros k i; [cbn; lia|].
  cbn [loop_lines length]. rewrite length_app. specialize (IH (S k) (S i)).
  destruct (network k (url x)); cbn [length]; lia.
Qed.

(** X12: what [main] prints when the index is fetched: the four opening
    lines with the number of issues found, then for each of the first ten
    issues its progress line, followed by a warning if its page could not
    be fetched, then the two closing lines; twenty-six lines at most. *)
Theorem main_prints (w : world) (html : str) (issues : list issue) :
  network (length (requests w)) ARCHIVE_URL = Body html ->
  parse_issues html = Ok issues ->
  stdout (snd (main network w))
  = stdout w
    ++ [ L "Fetching Weeklypedia archive...";
         L "Parsing issues...";
         L "Found " ++ decimal (Z.of_nat (length issues)) ++ L " issues";
         L "Fetching content for 10 most recent issues..." ]
    ++ loop_lines network (S (length (requests w))) 0 (firstn 10 issues)
    ++ [ L "Generating RSS feed..."; L "Written to feed.xml" ] /\
  length (stdout (snd (main network w))) <= length (stdout w) + 26.
Proof.
  intros H Hp. rewrite (main_run_body network w html issues H Hp).
  cbn [snd stdout]. split; [reflexivity|].
  rewrite !length_app. cbn [length].
  pose proof (loop_lines_length (S (length (requests w))) 0 (firstn 10 issues)).
  rewrite length_firstn in H0. lia.
Qed.

End Printing.

Lemma main_prints_witness :
  stdout (snd (main sample_network new_world))
  = stdout new_world
    ++ [ L "Fetching Weeklypedia archive...";
         L "Parsing issues...";
         L "Found "
         ++ decimal (Z.of_nat (length [jan9_issue; mixed_issue; jan9_issue]))
         ++ L " issues";
         L "Fetching content for 10 most recent issues..." ]
    ++ loop_lines sample_network (S (length (requests new_world))) 0
         (firstn 10 [jan9_issue; mixed_issue; jan9_issue])
    ++ [ L "Generating RSS feed..."; L "Written to feed.xml" ] /\
  length (stdout (snd (main sample_network new_world)))
  <= length (stdout new_world) + 26.
Proof.
  apply (main_prints sample_network new_world
           (index sample_index (L "</li></ul>"))).
  - reflexivity.
  - vm_compute; reflexivity.
Defined.
